(** * RSigma: the dependency-tracked evaluation engine of [spreadsheet.rs]

    A shallow embedding of [Spreadsheet] (src/src/spreadsheet.rs): the cell
    store, [get], [set] and [update_cell_info], the variable resolver with
    its range helpers, and the propagation worker [process_cells_update]
    (graph construction by BFS, DFS topological sort, timestamp-guarded
    recomputation) with its message loop and [Drop]; and the per-message
    reply logic of [handle_connection] (src/src/lib.rs).

    The expression evaluator ([rsheet_lib::cell_expr::CellExpr]) and the
    cell-name parser ([CellIdentifier::from_str]) belong to the external
    [rsheet_lib] crate; they are an interface ([CellExprLib]) and every
    theorem quantifies over its implementation.  A small concrete instance
    ([LiteralSums]) runs the engine on examples.

    Modelling choices:
    - [Instant] is a [nat]; [Instant::now()] values are supplied by the
      caller (a concurrent run is an interleaving of the evaluation phase
      and the commit phase of each call).
    - [HashMap]/[HashSet] are stdpp's [gmap]/[gset]; iteration over a
      [HashSet] or over [HashMap::keys] follows [elements] (one of the
      orders the Rust code may use).
    - The [mpsc] channel is the list of queued messages plus a flag telling
      whether the receiving worker is still alive. *)

From Stdlib Require Import ZArith String Ascii.
From stdpp Require Import base gmap sets list strings pretty.

Open Scope string_scope.

(** ** Data model *)

(** [rsheet_lib::command::CellIdentifier] ([u32] fields). *)
Record CellIdentifier := { col : N; row : N }.

Global Instance CellIdentifier_eq_dec : EqDecision CellIdentifier.
Proof. solve_decision. Defined.

Global Instance CellIdentifier_countable : Countable CellIdentifier.
Proof.
  apply (inj_countable' (fun c => (col c, row c))
                        (fun p => {| col := p.1; row := p.2 |})).
  by intros [].
Defined.

(** [rsheet_lib::cell_value::CellValue]. *)
Module CellValue.
Inductive t :=
| None
| String (s : string)
| Int (z : Z)
| Error (msg : string).
End CellValue.

Global Instance CellValue_eq_dec : EqDecision CellValue.t.
Proof. solve_decision. Defined.

(** [rsheet_lib::cell_expr::CellArgument]. *)
Module CellArgument.
Inductive t :=
| Value (v : CellValue.t)
| Vector (vs : list CellValue.t)
| Matrix (m : list (list CellValue.t)).
End CellArgument.

Global Instance CellArgument_eq_dec : EqDecision CellArgument.t.
Proof. solve_decision. Defined.

(** [rsheet_lib::cell_expr::CellExprEvalError]: its only variant. *)
Inductive CellExprEvalError := VariableDependsOnError.

(** Rust's [Result]. *)
Inductive result (A E : Type) :=
| Ok (a : A)
| Err (e : E).
Arguments Ok {A E} a.
Arguments Err {A E} e.

(** [matches!(v, CellValue::Error(_))]. *)
Definition is_error (v : CellValue.t) : bool :=
  match v with CellValue.Error _ => true | _ => false end.

Definition VDOE : CellValue.t := CellValue.Error "VariableDependsOnError".

(** [struct CellInfo]. *)
Record CellInfo := {
  value : CellValue.t;
  expression : string;
  dependencies : list CellIdentifier;
  dependents : gset CellIdentifier;
  last_update_time : nat
}.

(** The contents of [cells: Arc<Mutex<HashMap<CellIdentifier, CellInfo>>>]. *)
Abbreviation Store := (gmap CellIdentifier CellInfo).

(** [enum UpdateMessage]. *)
Inductive UpdateMessage :=
| CellUpdate (cell_id : CellIdentifier)
| Shutdown.

(** [struct Spreadsheet]: the store and the sending end of the channel. *)
Record Sheet := {
  cells : Store;
  queue : list UpdateMessage;
  receiver_alive : bool
}.

(** [Spreadsheet::new]: an empty store, a fresh channel, a live worker. *)
Definition new_sheet : Sheet :=
  {| cells := ∅; queue := []; receiver_alive := true |}.

(** ** Interface of the external [rsheet_lib] crate *)

Class CellExprLib := {
  CellExpr : Type;
  (** [CellExpr::new] *)
  cell_expr_new : string -> CellExpr;
  (** [CellExpr::find_variable_names] *)
  find_variable_names : CellExpr -> list string;
  (** [CellExpr::evaluate] *)
  evaluate : CellExpr -> gmap string CellArgument.t ->
             result CellValue.t CellExprEvalError;
  (** [str::parse::<CellIdentifier>] ([None] for [Err]) *)
  parse_cell_identifier : string -> option CellIdentifier
}.

(** ** String helpers *)

(** [str::contains(c)]. *)
Fixpoint contains (c : ascii) (s : string) : bool :=
  match s with
  | EmptyString => false
  | String a s' => Ascii.eqb a c || contains c s'
  end.

(** [str::split(c)] collected into a vector. *)
Fixpoint split_on (c : ascii) (s : string) : list string :=
  match s with
  | EmptyString => [EmptyString]
  | String a s' =>
      let parts := split_on c s' in
      if Ascii.eqb a c then EmptyString :: parts
      else match parts with
           | p :: ps => String a p :: ps
           | [] => [String a EmptyString]
           end
  end.

(** [a..=b] over [u32]. *)
Definition range_incl (a b : N) : list N :=
  if (a <=? b)%N
  then map (fun k => (a + N.of_nat k)%N) (seq 0 (S (N.to_nat (b - a))))
  else [].

Section Engine.
Context `{Lib : CellExprLib}.

(** ** [Spreadsheet::get] *)

Definition dep_is_error (cells : Store) (dep : CellIdentifier) : bool :=
  match cells !! dep with
  | Some dep_info => is_error (value dep_info)
  | None => false
  end.

Definition get (cells : Store) (cell_id : CellIdentifier) : CellValue.t :=
  match cells !! cell_id with
  | Some cell_info =>
      if existsb (dep_is_error cells) (dependencies cell_info)
      then VDOE
      else value cell_info
  | None => CellValue.None
  end.

(** ** [Spreadsheet::parse_range] *)

Definition parse_range (range : string)
  : option (CellIdentifier * CellIdentifier) :=
  match split_on "_" range with
  | [p0; p1] =>
      match parse_cell_identifier p0, parse_cell_identifier p1 with
      | Some start, Some end_ => Some (start, end_)
      | _, _ => None
      end
  | _ => None
  end.

(** ** Dependencies collected by [Spreadsheet::set] *)

(** [for row in start.row..=end.row { for col in start.col..=end.col ...}] *)
Definition range_cells (start end_ : CellIdentifier) : list CellIdentifier :=
  flat_map (fun r => map (fun c => {| col := c; row := r |})
                         (range_incl (col start) (col end_)))
           (range_incl (row start) (row end_)).

Definition var_dependencies (var_name : string) : list CellIdentifier :=
  if negb (contains "_" var_name) then
    match parse_cell_identifier var_name with
    | Some dep_id => [dep_id]
    | None => []
    end
  else
    match parse_range var_name with
    | Some (start, end_) => range_cells start end_
    | None => []
    end.

Definition collect_dependencies (names : list string) : list CellIdentifier :=
  flat_map var_dependencies names.

(** ** The Variable Resolver: [get_range_argument] and its helpers *)

Definition cell_has_error (cells : Store) (cell_id : CellIdentifier) : bool :=
  match cells !! cell_id with
  | Some cell => is_error (value cell)
  | None => false
  end.

Definition has_errors (cells : Store) (start end_ : CellIdentifier) : bool :=
  existsb (fun r =>
    existsb (fun c => cell_has_error cells {| col := c; row := r |})
            (range_incl (col start) (col end_)))
    (range_incl (row start) (row end_)).

Definition get_vertical_vector (cells : Store) (start end_ : CellIdentifier)
  : CellArgument.t :=
  CellArgument.Vector
    (map (fun r => get cells {| col := col start; row := r |})
         (range_incl (row start) (row end_))).

Definition get_horizontal_vector (cells : Store) (start end_ : CellIdentifier)
  : CellArgument.t :=
  CellArgument.Vector
    (map (fun c => get cells {| col := c; row := row start |})
         (range_incl (col start) (col end_))).

Definition get_matrix (cells : Store) (start end_ : CellIdentifier)
  : CellArgument.t :=
  CellArgument.Matrix
    (map (fun r => map (fun c => get cells {| col := c; row := r |})
                       (range_incl (col start) (col end_)))
         (range_incl (row start) (row end_))).

Definition get_range_argument (cells : Store) (start end_ : CellIdentifier)
  : CellArgument.t :=
  if has_errors cells start end_ then CellArgument.Value VDOE
  else if (col start =? col end_)%N then get_vertical_vector cells start end_
  else if (row start =? row end_)%N then get_horizontal_vector cells start end_
  else get_matrix cells start end_.

(** ** [Spreadsheet::resolve_variables] *)

Definition resolve_var (cells : Store) (variables : gmap string CellArgument.t)
    (var_name : string) : gmap string CellArgument.t :=
  if contains "_" var_name then
    match parse_range var_name with
    | Some (start, end_) =>
        <[var_name := get_range_argument cells start end_]> variables
    | None => variables
    end
  else
    match parse_cell_identifier var_name with
    | Some cell_id =>
        <[var_name := CellArgument.Value (get cells cell_id)]> variables
    | None => variables
    end.

Definition resolve_variables (cells : Store) (cell_expr : CellExpr)
  : gmap string CellArgument.t :=
  foldl (resolve_var cells) ∅ (find_variable_names cell_expr).

(** ** [Spreadsheet::update_cell_info] *)

(** [if let Some(dep_cell) = cells.get_mut(&d) { f(&mut dep_cell.dependents) }] *)
Definition modify_dependents (f : gset CellIdentifier -> gset CellIdentifier)
    (cells : Store) (d : CellIdentifier) : Store :=
  match cells !! d with
  | Some dep_cell =>
      <[d := {| value := value dep_cell;
                expression := expression dep_cell;
                dependencies := dependencies dep_cell;
                dependents := f (dependents dep_cell);
                last_update_time := last_update_time dep_cell |}]> cells
  | None => cells
  end.

Definition update_cells (cells : Store) (cell_id : CellIdentifier)
    (v : CellValue.t) (expr : string) (deps : list CellIdentifier)
    (current_time : nat) : Store :=
  let '(old_dependencies, old_dependents) :=
    match cells !! cell_id with
    | Some old_cell => (dependencies old_cell, dependents old_cell)
    | None => ([], ∅)
    end in
  let cells1 := foldl (modify_dependents (fun s => s ∖ {[cell_id]}))
                      cells old_dependencies in
  let cells2 := foldl (modify_dependents (fun s => {[cell_id]} ∪ s))
                      cells1 deps in
  <[cell_id := {| value := v;
                  expression := expr;
                  dependencies := deps;
                  dependents := old_dependents;
                  last_update_time := current_time |}]> cells2.

(** The store is written under the lock, then the worker is notified;
    a failed [send] (the worker is gone) is reported as
    [VariableDependsOnError] after the write. *)
Definition update_cell_info (sh : Sheet) (cell_id : CellIdentifier)
    (v : CellValue.t) (expr : string) (deps : list CellIdentifier)
    (current_time : nat) : result unit CellExprEvalError * Sheet :=
  let cells' := update_cells (cells sh) cell_id v expr deps current_time in
  if receiver_alive sh then
    (Ok tt, {| cells := cells';
               queue := (queue sh ++ [CellUpdate cell_id])%list;
               receiver_alive := true |})
  else
    (Err VariableDependsOnError,
     {| cells := cells'; queue := queue sh; receiver_alive := false |}).

(** ** [Spreadsheet::set]

    [set] runs in two phases: the evaluation phase (time stamp, parse,
    dependencies, resolution, evaluation; the resolver takes the lock for
    each read) and the commit phase ([update_cell_info]).  Concurrent
    [set]s interleave at that boundary. *)

Record PendingSet := {
  p_cell_id : CellIdentifier;
  p_value : CellValue.t;
  p_expression : string;
  p_dependencies : list CellIdentifier;
  p_time : nat
}.

Definition set_prepare (cells : Store) (cell_id : CellIdentifier)
    (expr : string) (current_time : nat) : PendingSet :=
  let cell_expr := cell_expr_new expr in
  let deps := collect_dependencies (find_variable_names cell_expr) in
  let variables := resolve_variables cells cell_expr in
  let v := match evaluate cell_expr variables with
           | Ok v => v
           | Err VariableDependsOnError => VDOE
           end in
  {| p_cell_id := cell_id; p_value := v; p_expression := expr;
     p_dependencies := deps; p_time := current_time |}.

Definition set_commit (sh : Sheet) (p : PendingSet)
  : result unit CellExprEvalError * Sheet :=
  update_cell_info sh (p_cell_id p) (p_value p) (p_expression p)
                   (p_dependencies p) (p_time p).

(** A [set] that no other call interleaves with. *)
Definition set (sh : Sheet) (cell_id : CellIdentifier) (expr : string)
    (current_time : nat) : result unit CellExprEvalError * Sheet :=
  set_commit sh (set_prepare (cells sh) cell_id expr current_time).

End Engine.

(** ** The propagation worker: [Spreadsheet::process_cells_update] *)

(** [HashMap<CellIdentifier, HashSet<CellIdentifier>>] of stage 1 and the
    marks and output of stage 2. *)
Abbreviation Graph := (gmap CellIdentifier (gset CellIdentifier)).
Abbreviation Marks := (gset CellIdentifier * gset CellIdentifier * list CellIdentifier)%type.

Section Worker.
Context `{Lib : CellExprLib}.

(** Stage 1: BFS over [dependents].  The store is read once per dequeued
    node; [graph !! v] holds the nodes [u] with [v ∈ dependents u]
    ([dependency_graph.entry(dep_id).or_default().insert(current_id)]).
    The [while let] loop is run with a fuel bound. *)

Definition bfs_visit_dependent (current_id : CellIdentifier)
    (acc : Graph * gset CellIdentifier * list CellIdentifier)
    (dep_id : CellIdentifier) : Graph * gset CellIdentifier * list CellIdentifier :=
  let '(graph, discovered, to_process) := acc in
  let graph' := <[dep_id := {[current_id]} ∪ default ∅ (graph !! dep_id)]> graph in
  if decide (dep_id ∈ discovered) then (graph', discovered, to_process)
  else (graph', {[dep_id]} ∪ discovered, (to_process ++ [dep_id])%list).

Definition dependents_of (cells : Store) (current_id : CellIdentifier)
  : gset CellIdentifier :=
  match cells !! current_id with
  | Some cell => dependents cell
  | None => ∅
  end.

Fixpoint bfs (fuel : nat) (cells : Store) (graph : Graph)
    (discovered : gset CellIdentifier) (to_process : list CellIdentifier)
  : Graph :=
  match fuel with
  | O => graph
  | S fuel' =>
      match to_process with
      | [] => graph
      | current_id :: rest =>
          let '(graph', discovered', to_process') :=
            foldl (bfs_visit_dependent current_id) (graph, discovered, rest)
                  (elements (dependents_of cells current_id)) in
          bfs fuel' cells graph' discovered' to_process'
      end
  end.

Definition build_dependency_graph (fuel : nat) (cells : Store)
    (cell_id : CellIdentifier) : Graph :=
  bfs fuel cells ∅ {[cell_id]} [cell_id].

(** Stage 2: the nested [fn visit] with permanent and temporary marks. *)

Fixpoint visit (fuel : nat) (graph : Graph) (node : CellIdentifier)
    (st : Marks) : Marks :=
  match fuel with
  | O => st
  | S fuel' =>
      let '(permanent_marks, temporary_marks, sorted) := st in
      if decide (node ∈ permanent_marks) then st
      else if decide (node ∈ temporary_marks) then st
      else
        let st1 := (permanent_marks, {[node]} ∪ temporary_marks, sorted) in
        let '(pm, tm, s) :=
          foldl (fun st' dep => visit fuel' graph dep st') st1
                (elements (default ∅ (graph !! node))) in
        ({[node]} ∪ pm, tm ∖ {[node]}, (s ++ [node])%list)
  end.

Definition topological_sort (fuel : nat) (graph : Graph) : list CellIdentifier :=
  let '(_, _, update_order) :=
    foldl (fun st node =>
             let '(permanent_marks, _, _) := st in
             if decide (node ∈ permanent_marks) then st
             else visit fuel graph node st)
          (∅, ∅, []) (elements (dom graph)) in
  update_order.

(** Both loops terminate within one step per cell reachable from the
    changed cell; this bound covers every cell the store mentions. *)
Definition worker_fuel (cells : Store) : nat :=
  S (size cells + map_fold (fun _ c acc => size (dependents c) + acc) 0 cells).

Definition update_order (cells : Store) (cell_id : CellIdentifier)
  : list CellIdentifier :=
  let fuel := worker_fuel cells in
  topological_sort fuel (build_dependency_graph fuel cells cell_id).

(** Stage 3: gathering the variables of a stored expression, inline in
    the worker (one lock, raw stored values). *)

Definition cell_value_or_none (cells : Store) (id : CellIdentifier)
  : CellValue.t :=
  match cells !! id with
  | Some c => value c
  | None => CellValue.None
  end.

Definition gather_var (cells : Store) (vars : gmap string CellArgument.t)
    (var_name : string) : gmap string CellArgument.t :=
  if negb (contains "_" var_name) then
    match parse_cell_identifier var_name with
    | Some var_id =>
        match cells !! var_id with
        | Some cell => <[var_name := CellArgument.Value (value cell)]> vars
        | None => vars
        end
    | None => vars
    end
  else
    match parse_range var_name with
    | Some (start, end_) =>
        let arg :=
          if (col start =? col end_)%N then
            CellArgument.Vector
              (map (fun r => cell_value_or_none cells {| col := col start; row := r |})
                   (range_incl (row start) (row end_)))
          else if (row start =? row end_)%N then
            CellArgument.Vector
              (map (fun c => cell_value_or_none cells {| col := c; row := row start |})
                   (range_incl (col start) (col end_)))
          else
            CellArgument.Matrix
              (map (fun r => map (fun c => cell_value_or_none cells {| col := c; row := r |})
                                 (range_incl (col start) (col end_)))
                   (range_incl (row start) (row end_))) in
        <[var_name := arg]> vars
    | None => vars
    end.

Definition worker_gather (cells : Store) (cell_expr : CellExpr)
  : gmap string CellArgument.t :=
  foldl (gather_var cells) ∅ (find_variable_names cell_expr).

(** The timestamp-guarded commit of one recomputation. *)
Definition worker_commit (cells : Store) (cell_id : CellIdentifier)
    (current_time : nat) (r : result CellValue.t CellExprEvalError) : Store :=
  let new_value := match r with
                   | Ok new_value => new_value
                   | Err VariableDependsOnError => VDOE
                   end in
  match cells !! cell_id with
  | Some cell =>
      if decide (last_update_time cell < current_time) then
        <[cell_id := {| value := new_value;
                        expression := expression cell;
                        dependencies := dependencies cell;
                        dependents := dependents cell;
                        last_update_time := current_time |}]> cells
      else cells
  | None => cells
  end.

(** One cell of stage 3, run without interleaved [set]s. *)
Definition recompute (cells : Store) (cell_id : CellIdentifier)
    (current_time : nat) : Store :=
  match cells !! cell_id with
  | Some cell =>
      let cell_expr := cell_expr_new (expression cell) in
      let variables := worker_gather cells cell_expr in
      worker_commit cells cell_id current_time (evaluate cell_expr variables)
  | None => cells
  end.

(** Stage 3 over the update order; the [k]-th recomputation reads the
    clock at [now + k]. *)
Fixpoint recompute_all (cells : Store) (order : list CellIdentifier)
    (now : nat) : Store :=
  match order with
  | [] => cells
  | c :: rest => recompute_all (recompute cells c now) rest (S now)
  end.

(** Handling of one [CellUpdate { cell_id }] message. *)
Definition process_cell_update (cells : Store) (cell_id : CellIdentifier)
    (now : nat) : Store :=
  recompute_all cells (update_order cells cell_id) now.

(** The message loop [while let Ok(msg) = receiver.recv()] over the
    messages received so far, in channel order; the clock advances by one
    per recomputation.  An empty list is a [recv] still waiting. *)
Fixpoint process_cells_update (cells : Store) (msgs : list UpdateMessage)
    (now : nat) : Store :=
  match msgs with
  | [] => cells
  | Shutdown :: _ => cells
  | CellUpdate cell_id :: rest =>
      process_cells_update (process_cell_update cells cell_id now) rest
                           (now + length (update_order cells cell_id))
  end.

End Worker.

(** [impl Drop for Spreadsheet]: [let _ = self.update_sender.send(Shutdown)];
    a failed send is ignored. *)
Definition drop_spreadsheet (sh : Sheet) : Sheet :=
  if receiver_alive sh
  then {| cells := cells sh; queue := (queue sh ++ [Shutdown])%list;
          receiver_alive := true |}
  else sh.

(** ** The connection handler of [src/src/lib.rs]

    [rsheet_lib::command::Command] and [rsheet_lib::replies::Reply]; the
    command parser ([str::parse::<Command>]) and [column_number_to_name]
    belong to [rsheet_lib] and are parameters of the section. *)

Module Command.
Inductive t :=
| Get (cell_identifier : CellIdentifier)
| Set_ (cell_identifier : CellIdentifier) (cell_expr : string).
End Command.

Module Reply.
Inductive t :=
| Value (name : string) (v : CellValue.t)
| Error (msg : string).
End Reply.

Global Instance Reply_eq_dec : EqDecision Reply.t.
Proof. solve_decision. Defined.

(** What the body of the [ReadMessageResult::Message(msg)] arm does with
    one message: write a reply, [continue] without one, or panic. *)
Inductive Outcome :=
| WriteReply (r : Reply.t)
| NoReply
| Panicked.

(** [format!("{:?}", e)] for [CellExprEvalError]. *)
Definition debug_CellExprEvalError (e : CellExprEvalError) : string :=
  match e with VariableDependsOnError => "VariableDependsOnError" end.

Definition u32_max : N := 4294967295.

Section Connection.
Context `{Lib : CellExprLib}.
Context (parse_command : string -> result Command.t string).
Context (column_number_to_name : N -> string).

(** [format!("{}{}", column_number_to_name(col), row + 1)]; the [u32]
    addition panics on overflow (overflow checks on, as in debug builds). *)
Definition cell_name (cell_identifier : CellIdentifier) : option string :=
  if (row cell_identifier <? u32_max)%N
  then Some (column_number_to_name (col cell_identifier) ++
             pretty (row cell_identifier + 1)%N)
  else None.

(** One message of [handle_connection], [set] stamped at [now]. *)
Definition handle_message (sh : Sheet) (msg : string) (now : nat)
  : Outcome * Sheet :=
  match parse_command msg with
  | Ok command =>
      match command with
      | Command.Get cell_identifier =>
          match cell_name cell_identifier with
          | Some name =>
              let v := get (cells sh) cell_identifier in
              match v with
              | CellValue.Error m =>
                  if String.eqb m "VariableDependsOnError"
                  then (WriteReply (Reply.Error "Cell depends on another error cell"), sh)
                  else (WriteReply (Reply.Value name v), sh)
              | _ => (WriteReply (Reply.Value name v), sh)
              end
          | None => (Panicked, sh)
          end
      | Command.Set_ cell_identifier cell_expr =>
          let '(r, sh') := set sh cell_identifier cell_expr now in
          match r with
          | Err e => (WriteReply (Reply.Error ("Error: " ++ debug_CellExprEvalError e)), sh')
          | Ok _ => (NoReply, sh')
          end
      end
  | Err e => (WriteReply (Reply.Error e), sh)
  end.

End Connection.

(** ** A concrete instance of the [rsheet_lib] interface

    Cell names are column letters followed by a 1-based row number
    ([A1] is column 0, row 0; [AA3] is column 26, row 2), as in
    [rsheet_lib].  Expressions are reduced to sums: [t1 + t2 + ...] of
    decimal literals and scalar cell names.  Variable names are the
    identifier tokens that start with an upper-case letter.  As in
    [rsheet_lib], a scalar binding holding an error makes evaluation fail
    with [VariableDependsOnError], and an expression that cannot be
    evaluated yields an [Error] value. *)

Module LiteralSums.

Definition is_upper (a : ascii) : bool :=
  (Nat.leb 65 (nat_of_ascii a)) && (Nat.leb (nat_of_ascii a) 90).
Definition is_lower (a : ascii) : bool :=
  (Nat.leb 97 (nat_of_ascii a)) && (Nat.leb (nat_of_ascii a) 122).
Definition is_digit (a : ascii) : bool :=
  (Nat.leb 48 (nat_of_ascii a)) && (Nat.leb (nat_of_ascii a) 57).
Definition is_ident_char (a : ascii) : bool :=
  is_upper a || is_lower a || is_digit a || Ascii.eqb a "_".

Fixpoint split_letters (s : string) : string * string :=
  match s with
  | String a s' =>
      if is_upper a then let '(l, d) := split_letters s' in (String a l, d)
      else (EmptyString, s)
  | EmptyString => (EmptyString, EmptyString)
  end.

Fixpoint letters_value (s : string) (acc : N) : N :=
  match s with
  | String a s' =>
      letters_value s' (acc * 26 + N.of_nat (nat_of_ascii a - 64%nat))%N
  | EmptyString => acc
  end.

Fixpoint digits_value (s : string) (acc : N) : option N :=
  match s with
  | String a s' =>
      if is_digit a
      then digits_value s' (acc * 10 + N.of_nat (nat_of_ascii a - 48%nat))%N
      else None
  | EmptyString => Some acc
  end.

Definition parse_cell (s : string) : option CellIdentifier :=
  match split_letters s with
  | (EmptyString, _) | (_, EmptyString) => None
  | (letters, digits) =>
      match digits_value digits 0 with
      | Some n =>
          if (n =? 0)%N then None
          else Some {| col := letters_value letters 0 - 1; row := n - 1 |}
      | None => None
      end
  end.

Fixpoint blank_non_ident (s : string) : string :=
  match s with
  | String a s' =>
      String (if is_ident_char a then a else " ") (blank_non_ident s')
  | EmptyString => EmptyString
  end.

Definition starts_upper (t : string) : bool :=
  match t with String a _ => is_upper a | EmptyString => false end.

Definition variable_names (src : string) : list string :=
  filter (fun t => starts_upper t = true) (split_on " " (blank_non_ident src)).

Fixpoint strip_spaces (s : string) : string :=
  match s with
  | String a s' => if Ascii.eqb a " " then strip_spaces s' else String a (strip_spaces s')
  | EmptyString => EmptyString
  end.

Definition term_value (vars : gmap string CellArgument.t) (t : string)
  : option Z :=
  match digits_value t 0, t with
  | Some n, String _ _ => Some (Z.of_N n)
  | _, _ =>
      match vars !! t with
      | Some (CellArgument.Value (CellValue.Int z)) => Some z
      | _ => None
      end
  end.

Definition eval_sum (src : string) (vars : gmap string CellArgument.t)
  : result CellValue.t CellExprEvalError :=
  if existsb (fun kv => match kv.2 with
                        | CellArgument.Value (CellValue.Error _) => true
                        | _ => false
                        end) (map_to_list vars)
  then Err VariableDependsOnError
  else
    match mapM (term_value vars) (split_on "+" (strip_spaces src)) with
    | Some zs => Ok (CellValue.Int (foldr Z.add 0%Z zs))
    | None => Ok (CellValue.Error ("cannot evaluate: " ++ src))
    end.

Definition lib : CellExprLib := {|
  CellExpr := string;
  cell_expr_new := fun s => s;
  find_variable_names := variable_names;
  evaluate := eval_sum;
  parse_cell_identifier := parse_cell
|}.

End LiteralSums.

(** ** Runs of the engine: the store after a sequence of commits

    Every [set] ends in one [update_cell_info] commit and every worker
    recomputation in one [worker_commit]; a run of the engine, with any
    interleaving of concurrent calls, is a sequence of such commits. *)

Inductive Step :=
| SetCommit (cell_id : CellIdentifier) (v : CellValue.t) (expr : string)
            (deps : list CellIdentifier) (current_time : nat)
| WorkerCommit (cell_id : CellIdentifier) (current_time : nat)
               (r : result CellValue.t CellExprEvalError).

Definition run_step (cells : Store) (st : Step) : Store :=
  match st with
  | SetCommit cell_id v expr deps t => update_cells cells cell_id v expr deps t
  | WorkerCommit cell_id t r => worker_commit cells cell_id t r
  end.

Fixpoint replay (cells : Store) (steps : list Step) : Store :=
  match steps with
  | [] => cells
  | st :: rest => replay (run_step cells st) rest
  end.

(** A commit creating the record of [cell_id] while some existing cell
    already lists [cell_id] among its dependencies. *)
Definition creates_listed_cell (cells : Store) (cell_id : CellIdentifier) : bool :=
  match cells !! cell_id with
  | Some _ => false
  | None => existsb (fun kv => bool_decide (cell_id ∈ dependencies kv.2))
                    (map_to_list cells)
  end.

Fixpoint no_listed_creation (cells : Store) (steps : list Step) : bool :=
  match steps with
  | [] => true
  | st :: rest =>
      match st with
      | SetCommit cell_id _ _ _ _ => negb (creates_listed_cell cells cell_id)
      | WorkerCommit _ _ _ => true
      end && no_listed_creation (run_step cells st) rest
  end.

(** Invariant 1 of the data model, for pairs of distinct cells. *)
Definition dep_integrity (cells : Store) : Prop :=
  ∀ c info_c d info_d,
    cells !! c = Some info_c -> d ∈ dependencies info_c -> d ≠ c ->
    cells !! d = Some info_d -> c ∈ dependents info_d.

Definition set_dependents (info : CellInfo) (s : gset CellIdentifier) : CellInfo :=
  {| value := value info; expression := expression info;
     dependencies := dependencies info; dependents := s;
     last_update_time := last_update_time info |}.

Fixpoint count_in (x : CellIdentifier) (ds : list CellIdentifier) : nat :=
  match ds with
  | [] => 0
  | d :: ds' => (if decide (d = x) then 1 else 0) + count_in x ds'
  end.

(** [v] is a reverse dependency of [u] in the store. *)
Definition dependent_edge (cells : Store) (u v : CellIdentifier) : Prop :=
  v ∈ dependents_of cells u.

(** ** Concrete stores and runs with the [LiteralSums] evaluator *)

Module Examples.

#[local] Existing Instance LiteralSums.lib.

Definition A1 : CellIdentifier := {| col := 0; row := 0 |}.
Definition B1 : CellIdentifier := {| col := 1; row := 0 |}.
Definition A2 : CellIdentifier := {| col := 0; row := 1 |}.
Definition B2 : CellIdentifier := {| col := 1; row := 1 |}.

(** Two concurrent [set]s of A1: the first starts at time 1, the second at
    time 2; both evaluate against the empty store, and the first, whose
    evaluation takes longer, commits last. *)
Definition slow_set : PendingSet := set_prepare ∅ A1 "5" 1.
Definition fast_set : PendingSet := set_prepare ∅ A1 "10" 2.
Definition after_fast : Sheet := (set_commit new_sheet fast_set).2.
Definition after_both : Sheet := (set_commit after_fast slow_set).2.
(** The worker then drains the two [CellUpdate { A1 }] events. *)
Definition after_worker : Store :=
  process_cell_update (process_cell_update (cells after_both) A1 3) A1 4.

(** [set B1 "A1 + 1"] before A1 has a record, then [set A1 "5"]. *)
Definition late_target : Store :=
  cells (set (set new_sheet B1 "A1 + 1" 1).2 A1 "5" 2).2.

(** The same two cells assigned in dependency order. *)
Definition ordered_steps : list Step :=
  [SetCommit A1 (CellValue.Int 5) "5" [] 1;
   SetCommit B1 (CellValue.Int 6) "A1 + 1" [A1] 2].

(** [set A1 "5"], [set B1 "A1 + 1"], [set A1 "10"], run sequentially. *)
Definition chain : Store :=
  cells (set (set (set new_sheet A1 "5" 1).2 B1 "A1 + 1" 2).2 A1 "10" 3).2.

(** A1 holds a local evaluation error; A2 and C1 have no record. *)
Definition with_error : Store := cells (set new_sheet A1 "1 +" 1).2.

Definition a1_record : CellInfo :=
  {| value := CellValue.Int 5; expression := "5"; dependencies := [];
     dependents := ∅; last_update_time := 3 |}.

Definition one_cell : Store := {[A1 := a1_record]}.

(** The sheet of [chain]. *)
Definition chain_sheet : Sheet :=
  (set (set (set new_sheet A1 "5" 1).2 B1 "A1 + 1" 2).2 A1 "10" 3).2.

(** [set A1 "1 +"], then [set B1 "A1 + 1"]: B1 depends on an error. *)
Definition error_dependency_sheet : Sheet :=
  (set (set new_sheet A1 "1 +" 1).2 B1 "A1 + 1" 2).2.

(** A command parser in the style of [rsheet_lib]: [get <cell>] and
    [set <cell> <expression>]. *)
Definition parse_request (msg : string) : result Command.t string :=
  match split_on " " msg with
  | cmd :: cell :: rest =>
      match LiteralSums.parse_cell cell with
      | Some id =>
          if String.eqb cmd "get" then
            match rest with
            | [] => Ok (Command.Get id)
            | _ => Err "Invalid command"
            end
          else if String.eqb cmd "set" then Ok (Command.Set_ id (String.concat " " rest))
          else Err "Invalid command"
      | None => Err "Invalid cell"
      end
  | _ => Err "Invalid command"
  end.

(** Column names [A], ..., [Z], [AA], ... *)
Fixpoint column_name_go (fuel : nat) (n : N) (acc : string) : string :=
  match fuel with
  | O => acc
  | S fuel' =>
      let acc' := String (ascii_of_N (65 + n mod 26)) acc in
      if (n <? 26)%N then acc' else column_name_go fuel' (n / 26 - 1) acc'
  end.

Definition column_name (n : N) : string := column_name_go 8 n "".

End Examples.

(** ** Specification predicates *)

Section Predicates.
Context `{Lib : CellExprLib}.

(** [dep] names a cell of the store that holds an [Error] value. *)
Definition dep_holds_error (cells : Store) (dep : CellIdentifier) : Prop :=
  ∃ d msg, cells !! dep = Some d ∧ value d = CellValue.Error msg.

(** Some cell of the rectangle [start..=end_] holds an [Error] value. *)
Definition range_has_error (cells : Store) (start end_ : CellIdentifier) : Prop :=
  ∃ c r, (col start <= c <= col end_)%N ∧ (row start <= r <= row end_)%N ∧
         dep_holds_error cells {| col := c; row := r |}.

(** The argument [resolve_variables] binds to one variable name. *)
Definition resolve_arg (cells : Store) (var_name : string)
  : option CellArgument.t :=
  if contains "_" var_name then
    match parse_range var_name with
    | Some (start, end_) => Some (get_range_argument cells start end_)
    | None => None
    end
  else
    match parse_cell_identifier var_name with
    | Some cell_id => Some (CellArgument.Value (get cells cell_id))
    | None => None
    end.

Definition insert_opt (m : gmap string CellArgument.t) (k : string)
    (o : option CellArgument.t) : gmap string CellArgument.t :=
  match o with Some a => <[k := a]> m | None => m end.

(** Every node and edge end of a dependency graph is reachable from [src]. *)
Definition graph_within (cells : Store) (src : CellIdentifier) (graph : Graph) : Prop :=
  ∀ k s, graph !! k = Some s ->
    rtc (dependent_edge cells) src k ∧ ∀ v, v ∈ s -> rtc (dependent_edge cells) src v.

Definition sorted_within (cells : Store) (src : CellIdentifier) (st : Marks) : Prop :=
  let '(_, _, sorted) := st in ∀ y, y ∈ sorted -> rtc (dependent_edge cells) src y.

(** The effect of a worker commit at [current_time] on a present cell. *)
Definition commit_outcome (cells : Store) (cell_id : CellIdentifier)
    (cell : CellInfo) (current_time : nat)
    (r : result CellValue.t CellExprEvalError) : Prop :=
  (last_update_time cell < current_time ->
     (∃ cell', worker_commit cells cell_id current_time r !! cell_id = Some cell' ∧
        value cell' = match r with Ok v => v | Err _ => VDOE end ∧
        last_update_time cell' = current_time ∧
        expression cell' = expression cell ∧
        dependencies cell' = dependencies cell ∧
        dependents cell' = dependents cell) ∧
     (∀ other, other ≠ cell_id ->
        worker_commit cells cell_id current_time r !! other = cells !! other)) ∧
  (current_time <= last_update_time cell ->
     worker_commit cells cell_id current_time r = cells).

(** The binding of a well-formed range [start..=end_]: the transitive
    error when a cell of the range holds an error, otherwise the vector or
    row-major matrix of the cells' [get] values. *)
Definition range_argument_shape (cells : Store) (start end_ : CellIdentifier) : Prop :=
  let nrows := S (N.to_nat (row end_ - row start)) in
  let ncols := S (N.to_nat (col end_ - col start)) in
  let at_ (i j : nat) :=
    get cells {| col := col start + N.of_nat j; row := row start + N.of_nat i |} in
  let arg := get_range_argument cells start end_ in
  (range_has_error cells start end_ -> arg = CellArgument.Value VDOE) ∧
  (¬ range_has_error cells start end_ ->
     (col start = col end_ ->
        ∃ vs, arg = CellArgument.Vector vs ∧ length vs = nrows ∧
              ∀ i, i < nrows -> vs !! i = Some (at_ i 0)) ∧
     (col start ≠ col end_ -> row start = row end_ ->
        ∃ vs, arg = CellArgument.Vector vs ∧ length vs = ncols ∧
              ∀ j, j < ncols -> vs !! j = Some (at_ 0 j)) ∧
     (col start ≠ col end_ -> row start ≠ row end_ ->
        2 <= nrows ∧ 2 <= ncols ∧
        ∃ m, arg = CellArgument.Matrix m ∧ length m = nrows ∧
             ∀ i, i < nrows -> ∃ rowv, m !! i = Some rowv ∧
               length rowv = ncols ∧
               ∀ j, j < ncols -> rowv !! j = Some (at_ i j))).

(** What a reversed range token leads to: no dependency, and a binding
    to a container without cell values. *)
Definition reversed_range_binding (cells : Store) (cell_expr : CellExpr)
    (var_name : string) (start end_ : CellIdentifier) : Prop :=
  var_dependencies var_name = [] ∧
  ∃ arg, resolve_variables cells cell_expr !! var_name = Some arg ∧
    ((col start = col end_ ∨ row start = row end_) ->
       arg = CellArgument.Vector []) ∧
    (col start ≠ col end_ -> row start ≠ row end_ ->
       ∃ m, arg = CellArgument.Matrix m ∧ Forall (fun r => r = []) m).

(** The argument the worker's inline gather binds to one variable name. *)
Definition gather_arg (cells : Store) (var_name : string)
  : option CellArgument.t :=
  match gather_var cells ∅ var_name !! var_name with
  | Some a => Some a
  | None => None
  end.

(** The marks of the DFS agree with its output: the output has no
    repetition and lists the permanently marked cells, and no cell is
    marked both ways. *)
Definition marks_ok (st : Marks) : Prop :=
  let '(pm, tm, sorted) := st in
  NoDup sorted ∧ (∀ y, y ∈ sorted <-> y ∈ pm) ∧ pm ## tm.

(** Every cell some record lists among its [dependents]. *)
Definition all_dependents (cells : Store) : gset CellIdentifier :=
  map_fold (fun _ c acc => dependents c ∪ acc) ∅ cells.

(** Every key of a stage-1 graph is a recorded reverse dependency, and
    every node it maps to has a record. *)
Definition graph_bounded (cells : Store) (graph : Graph) : Prop :=
  ∀ k s, graph !! k = Some s -> k ∈ all_dependents cells ∧ s ⊆ dom cells.

(** [graph'] keeps every entry of [graph], possibly enlarged. *)
Definition graph_grows (graph graph' : Graph) : Prop :=
  ∀ k s, graph !! k = Some s -> ∃ s', graph' !! k = Some s' ∧ s ⊆ s'.

(** Every successor of a permanently marked node is permanently or
    temporarily marked. *)
Definition closed_marks (graph : Graph) (pm tm : gset CellIdentifier) : Prop :=
  ∀ x y, x ∈ pm -> y ∈ default ∅ (graph !! x) -> y ∈ pm ∨ y ∈ tm.

(** No record of the store holds an [Error] value. *)
Definition no_error_values (cells : Store) : Prop :=
  map_Forall (fun _ info => is_error (value info) = false) cells.

(** Every reverse dependency recorded in the store is a genuine one: [y] in
    [dependents x] names another cell that has a record listing [x] among
    its dependencies. *)
Definition reverse_integrity (cells : Store) : Prop :=
  ∀ x ix y, cells !! x = Some ix -> y ∈ dependents ix ->
    y ≠ x ∧ ∃ iy, cells !! y = Some iy ∧ x ∈ dependencies iy.

(** [cells'] has the records of [cells], with the same expressions,
    dependencies and reverse dependencies and time stamps no smaller. *)
Definition records_kept (cells cells' : Store) : Prop :=
  ∀ x, match cells !! x, cells' !! x with
       | None, None => True
       | Some i, Some i' =>
           expression i' = expression i ∧ dependencies i' = dependencies i ∧
           dependents i' = dependents i ∧ last_update_time i <= last_update_time i'
       | _, _ => False
       end.

(** The store after a [set] commit of [cell_id], seen from the other cells
    and from [cell_id]'s own record. *)
Definition set_commit_effect (cells cells' : Store) (cell_id : CellIdentifier)
    (v : CellValue.t) (expr : string) (deps : list CellIdentifier)
    (current_time : nat) : Prop :=
  let old_deps := match cells !! cell_id with
                  | Some o => dependencies o | None => [] end in
  cells' !! cell_id =
    Some {| value := v; expression := expr; dependencies := deps;
            dependents := match cells !! cell_id with
                          | Some o => dependents o | None => ∅ end;
            last_update_time := current_time |} ∧
  ∀ x, x ≠ cell_id ->
    match cells !! x, cells' !! x with
    | None, None => True
    | Some i, Some i' =>
        value i' = value i ∧ expression i' = expression i ∧
        dependencies i' = dependencies i ∧
        last_update_time i' = last_update_time i ∧
        (∀ y, y ≠ cell_id -> y ∈ dependents i' <-> y ∈ dependents i) ∧
        (cell_id ∈ dependents i' <->
           x ∈ deps ∨ ((x ∉ old_deps) ∧ cell_id ∈ dependents i))
    | _, _ => False
    end.

End Predicates.

(** * Properties *)

Section Properties.
Context `{Lib : CellExprLib}.

Lemma dep_is_error_spec (cells : Store) (dep : CellIdentifier) :
  dep_is_error cells dep = true <-> dep_holds_error cells dep.
Proof.
  unfold dep_is_error, dep_holds_error.
  destruct (cells !! dep) as [d|] eqn:Hd; split.
  - destruct (value d) eqn:Hv; simpl; try discriminate. eauto.
  - intros (d' & msg & [= <-] & Hv). by rewrite Hv.
  - discriminate.
  - intros (d' & msg & [=] & _).
Qed.

Lemma existsb_dep_is_error (cells : Store) (deps : list CellIdentifier) :
  existsb (dep_is_error cells) deps = true <->
  ∃ dep, dep ∈ deps ∧ dep_holds_error cells dep.
Proof.
  rewrite existsb_exists. split.
  - intros (x & Hin & Hx). exists x. split.
    + by apply list_elem_of_In.
    + by apply dep_is_error_spec.
  - intros (x & Hin & Hx). exists x. split.
    + by apply list_elem_of_In.
    + by apply dep_is_error_spec.
Qed.

(** C4: [get id] is [None] for a missing cell; for a present cell it is
    [Error("VariableDependsOnError")] when some dependency that is present
    in the store holds an [Error], and the stored value otherwise. *)
Theorem get_spec (cells : Store) (cell_id : CellIdentifier) :
  match cells !! cell_id with
  | None => get cells cell_id = CellValue.None
  | Some info =>
      ((∃ dep, dep ∈ dependencies info ∧ dep_holds_error cells dep) ∧
       get cells cell_id = VDOE) ∨
      ((¬ ∃ dep, dep ∈ dependencies info ∧ dep_holds_error cells dep) ∧
       get cells cell_id = value info)
  end.
Proof.
  unfold get. destruct (cells !! cell_id) as [info|]; [|reflexivity].
  destruct (existsb (dep_is_error cells) (dependencies info)) eqn:He.
  - left. split; [by apply existsb_dep_is_error | reflexivity].
  - right. split; [|reflexivity].
    intros Hex. apply existsb_dep_is_error in Hex. congruence.
Qed.

(** C3: a recomputation commit with start time [t] on a present cell
    writes the new value (the evaluated value, or the transitive error)
    and the time stamp [t] when [t] is strictly later than the cell's
    [last_update_time], leaving the rest of the record and every other
    cell as they were; otherwise the store is unchanged. *)
Theorem worker_commit_guard (cells : Store) (cell_id : CellIdentifier)
    (cell : CellInfo) (current_time : nat)
    (r : result CellValue.t CellExprEvalError) :
  cells !! cell_id = Some cell ->
  commit_outcome cells cell_id cell current_time r.
Proof.
  intros Hc. unfold commit_outcome, worker_commit. rewrite Hc. split.
  - intros Hlt. rewrite decide_True by lia. split.
    + eexists. rewrite lookup_insert_eq. split; [reflexivity|].
      simpl. repeat split. destruct r as [v|[]]; reflexivity.
    + intros other Hne. by rewrite lookup_insert_ne by congruence.
  - intros Hle. by rewrite decide_False by lia.
Qed.

(** C10: every [set id e] (whether it returns [Ok] or not, whatever value
    the evaluation produced) leaves a record for [id] whose expression is
    [e]. *)
Theorem set_writes_record (sh : Sheet) (cell_id : CellIdentifier)
    (expr : string) (current_time : nat) :
  ∃ info, cells (set sh cell_id expr current_time).2 !! cell_id = Some info ∧
          expression info = expr.
Proof.
  unfold set, set_commit, update_cell_info, update_cells. simpl.
  destruct (cells sh !! cell_id) as [old|];
    destruct (receiver_alive sh); simpl;
    (eexists; rewrite lookup_insert_eq; split; reflexivity).
Qed.

End Properties.

(** ** Ranges *)

Section Ranges.
Context `{Lib : CellExprLib}.

Lemma range_incl_eq (a b : N) :
  (a <= b)%N ->
  range_incl a b = map (fun k => (a + N.of_nat k)%N) (seq 0 (S (N.to_nat (b - a)))).
Proof. intros Hab. unfold range_incl. by rewrite (proj2 (N.leb_le a b) Hab). Qed.

Lemma range_incl_empty (a b : N) : (b < a)%N -> range_incl a b = [].
Proof.
  intros Hba. unfold range_incl.
  destruct (N.leb_spec a b); [lia | reflexivity].
Qed.

Lemma length_range_incl (a b : N) :
  (a <= b)%N -> length (range_incl a b) = S (N.to_nat (b - a)).
Proof. intros Hab. by rewrite range_incl_eq, length_map, length_seq. Qed.

Lemma lookup_range_incl (a b : N) (i : nat) :
  (a <= b)%N -> i < S (N.to_nat (b - a)) ->
  range_incl a b !! i = Some (a + N.of_nat i)%N.
Proof.
  intros Hab Hi. rewrite range_incl_eq by done.
  rewrite list_lookup_fmap, lookup_seq_lt by done. reflexivity.
Qed.

Lemma elem_of_range_incl (x a b : N) :
  x ∈ range_incl a b <-> (a <= x <= b)%N.
Proof.
  unfold range_incl. destruct (N.leb_spec a b) as [Hab|Hab].
  - rewrite list_elem_of_fmap. split.
    + intros (k & -> & Hk). apply elem_of_seq in Hk. lia.
    + intros Hx. exists (N.to_nat (x - a)). split; [lia|].
      apply elem_of_seq. lia.
  - split; [intros Hx; by apply not_elem_of_nil in Hx | lia].
Qed.

Lemma has_errors_spec (cells : Store) (start end_ : CellIdentifier) :
  has_errors cells start end_ = true <-> range_has_error cells start end_.
Proof.
  unfold has_errors, range_has_error. rewrite existsb_exists. split.
  - intros (r & Hr & Hc). apply existsb_exists in Hc as (c & Hc & He).
    apply list_elem_of_In, elem_of_range_incl in Hr.
    apply list_elem_of_In, elem_of_range_incl in Hc.
    exists c, r. split; [done|]. split; [done|].
    by apply dep_is_error_spec.
  - intros (c & r & Hc & Hr & He). exists r. split.
    + by apply list_elem_of_In, elem_of_range_incl.
    + apply existsb_exists. exists c. split.
      * by apply list_elem_of_In, elem_of_range_incl.
      * by apply dep_is_error_spec.
Qed.

(** C8: on a well-formed range, the resolver binds the single scalar
    [Error("VariableDependsOnError")] when some cell of the range holds an
    error; otherwise a vector of the N cells top to bottom (same column),
    a vector of the N cells left to right (same row), or a row-major
    matrix of M rows and N columns with M, N >= 2.  Each element is the
    cell's [get] value. *)
Theorem get_range_argument_shape (cells : Store) (start end_ : CellIdentifier) :
  (col start <= col end_)%N -> (row start <= row end_)%N ->
  range_argument_shape cells start end_.
Proof.
  intros Hc Hr. unfold range_argument_shape.
  cbv zeta. unfold get_range_argument.
  split.
  - intros He. apply has_errors_spec in He. by rewrite He.
  - intros Hne. destruct (has_errors cells start end_) eqn:He.
    { exfalso. apply Hne. by apply has_errors_spec. }
    split; [|split].
    + intros Hceq. rewrite (proj2 (N.eqb_eq _ _) Hceq).
      unfold get_vertical_vector. eexists. split; [reflexivity|].
      rewrite length_map, length_range_incl by done. split; [reflexivity|].
      intros i Hi. rewrite list_lookup_fmap, lookup_range_incl by done.
      simpl. by rewrite N.add_0_r.
    + intros Hcne Hreq.
      rewrite (proj2 (N.eqb_neq _ _) Hcne), (proj2 (N.eqb_eq _ _) Hreq).
      unfold get_horizontal_vector. eexists. split; [reflexivity|].
      rewrite length_map, length_range_incl by done. split; [reflexivity|].
      intros j Hj. rewrite list_lookup_fmap, lookup_range_incl by done.
      simpl. by rewrite N.add_0_r.
    + intros Hcne Hrne.
      rewrite (proj2 (N.eqb_neq _ _) Hcne), (proj2 (N.eqb_neq _ _) Hrne).
      split; [lia|]. split; [lia|].
      unfold get_matrix. eexists. split; [reflexivity|].
      rewrite length_map, length_range_incl by done. split; [reflexivity|].
      intros i Hi. rewrite list_lookup_fmap, lookup_range_incl by done.
      eexists. split; [reflexivity|].
      rewrite length_map, length_range_incl by done. split; [reflexivity|].
      intros j Hj. rewrite list_lookup_fmap, lookup_range_incl by done.
      reflexivity.
Qed.

End Ranges.

(** ** Bindings built by a fold of [HashMap::insert]s *)

Section Bindings.
Context `{Lib : CellExprLib}.

Lemma foldl_insert_opt_lookup
    (f : gmap string CellArgument.t -> string -> gmap string CellArgument.t)
    (arg_of : string -> option CellArgument.t)
    (names : list string) (m : gmap string CellArgument.t) (x : string) :
  (∀ m' k, f m' k = insert_opt m' k (arg_of k)) ->
  foldl f m names !! x =
  match (if decide (x ∈ names) then arg_of x else None) with
  | Some a => Some a
  | None => m !! x
  end.
Proof.
  intros Hf. revert m. induction names as [|y ys IH]; intros m; cbn [foldl].
  - rewrite decide_False; [done|]. apply not_elem_of_nil.
  - rewrite IH, Hf. destruct (decide (x ∈ ys)) as [Hin|Hnin].
    + rewrite decide_True; [|by apply elem_of_cons; right].
      destruct (arg_of x) as [a|] eqn:Ha; [done|].
      unfold insert_opt. destruct (arg_of y) eqn:Hy; [|done].
      rewrite lookup_insert_ne; [done|]. congruence.
    + destruct (decide (x = y)) as [->|Hne].
      * rewrite decide_True by (apply elem_of_cons; by left).
        unfold insert_opt. destruct (arg_of y); [by rewrite lookup_insert_eq|done].
      * rewrite decide_False.
        -- unfold insert_opt. destruct (arg_of y); [|done].
           by rewrite lookup_insert_ne by congruence.
        -- intros Hx. apply elem_of_cons in Hx as [Hx|Hx]; contradiction.
Qed.

Lemma resolve_variables_lookup (cells : Store) (cell_expr : CellExpr)
    (x : string) :
  resolve_variables cells cell_expr !! x =
  if decide (x ∈ find_variable_names cell_expr) then resolve_arg cells x else None.
Proof.
  unfold resolve_variables.
  rewrite (foldl_insert_opt_lookup _ (resolve_arg cells)).
  2:{ intros m k. unfold resolve_var, resolve_arg, insert_opt.
      destruct (contains "_" k); [destruct (parse_range k) as [[]|]|
                                  destruct (parse_cell_identifier k)]; done. }
  case_decide; [destruct (resolve_arg cells x)|]; done.
Qed.

End Bindings.

Section ReversedRanges.
Context `{Lib : CellExprLib}.

Lemma has_errors_reversed (cells : Store) (start end_ : CellIdentifier) :
  ¬ ((col start <= col end_)%N ∧ (row start <= row end_)%N) ->
  has_errors cells start end_ = false.
Proof.
  intros Hrev. destruct (has_errors cells start end_) eqn:He; [|done].
  apply has_errors_spec in He as (c & r & Hc & Hr & _). exfalso. lia.
Qed.

Lemma range_cells_reversed (start end_ : CellIdentifier) :
  ¬ ((col start <= col end_)%N ∧ (row start <= row end_)%N) ->
  range_cells start end_ = [].
Proof.
  intros Hrev. unfold range_cells.
  destruct (N.le_gt_cases (row start) (row end_)) as [Hr|Hr].
  - rewrite (range_incl_empty (col start) (col end_)) by lia.
    induction (range_incl (row start) (row end_)); simpl; done.
  - by rewrite (range_incl_empty (row start) (row end_)) by lia.
Qed.

(** C9 (amended): a range token whose two halves parse as cell ids in the
    wrong order ([start.col > end.col] or [start.row > end.row]) records no
    dependency, but it is not skipped by the resolver: the variable is bound
    to a container holding no cell value, an empty vector when start and
    end share a column or a row, otherwise a matrix whose rows are all
    empty. *)
Theorem reversed_range_bound_empty (cells : Store) (cell_expr : CellExpr)
    (var_name : string) (start end_ : CellIdentifier) :
  var_name ∈ find_variable_names cell_expr ->
  contains "_" var_name = true ->
  parse_range var_name = Some (start, end_) ->
  ¬ ((col start <= col end_)%N ∧ (row start <= row end_)%N) ->
  reversed_range_binding cells cell_expr var_name start end_.
Proof.
  intros Hin Hus Hpr Hrev. unfold reversed_range_binding. split.
  { unfold var_dependencies. rewrite Hus, Hpr. simpl.
    by apply range_cells_reversed. }
  rewrite resolve_variables_lookup, decide_True by done.
  unfold resolve_arg. rewrite Hus, Hpr.
  eexists. split; [reflexivity|].
  unfold get_range_argument. rewrite has_errors_reversed by done.
  split.
  - intros Heq. destruct (N.eqb_spec (col start) (col end_)) as [Hc|Hc].
    + unfold get_vertical_vector. by rewrite range_incl_empty by lia.
    + destruct (N.eqb_spec (row start) (row end_)) as [Hr|Hr]; [|lia].
      unfold get_horizontal_vector. by rewrite range_incl_empty by lia.
  - intros Hc Hr.
    rewrite (proj2 (N.eqb_neq _ _) Hc), (proj2 (N.eqb_neq _ _) Hr).
    unfold get_matrix. eexists. split; [reflexivity|].
    apply Forall_forall. intros rv Hrv.
    apply list_elem_of_fmap in Hrv as (r & -> & Hr').
    apply elem_of_range_incl in Hr'.
    by rewrite range_incl_empty by lia.
Qed.

End ReversedRanges.

(** ** Dependency integrity *)

Section Integrity.

Lemma modify_dependents_lookup f (cells : Store) d x :
  modify_dependents f cells d !! x =
  if decide (d = x)
  then (fun info => set_dependents info (f (dependents info))) <$> cells !! x
  else cells !! x.
Proof.
  unfold modify_dependents. case_decide as Hdx.
  - subst. destruct (cells !! x) eqn:Hx; [by rewrite lookup_insert_eq|done].
  - destruct (cells !! d); [|done]. by rewrite lookup_insert_ne.
Qed.

Lemma foldl_modify_dependents_lookup f (ds : list CellIdentifier) (cells : Store) x :
  foldl (modify_dependents f) cells ds !! x =
  (fun info => set_dependents info (Nat.iter (count_in x ds) f (dependents info)))
    <$> cells !! x.
Proof.
  revert cells. induction ds as [|d ds IH]; intros cells; cbn [foldl count_in].
  - destruct (cells !! x) as [[]|]; reflexivity.
  - rewrite IH, modify_dependents_lookup. case_decide as Hdx.
    + destruct (cells !! x) as [info|]; [|done]. simpl.
      unfold set_dependents. simpl. by rewrite Nat.iter_swap.
    + destruct (cells !! x) as [info|]; reflexivity.
Qed.

Lemma iter_remove_elem (id c : CellIdentifier) n (s : gset CellIdentifier) :
  c ≠ id -> c ∈ s -> c ∈ Nat.iter n (fun s' => s' ∖ {[id]}) s.
Proof. intros Hne Hc. induction n; simpl; set_solver. Qed.

Lemma iter_insert_sub (id : CellIdentifier) n (s : gset CellIdentifier) :
  s ⊆ Nat.iter n (fun s' => {[id]} ∪ s') s.
Proof. induction n; simpl; set_solver. Qed.

Lemma iter_insert_elem (id : CellIdentifier) n (s : gset CellIdentifier) :
  0 < n -> id ∈ Nat.iter n (fun s' => {[id]} ∪ s') s.
Proof. intros Hn. destruct n; [lia|]. simpl. set_solver. Qed.

Lemma count_in_pos (x : CellIdentifier) ds : x ∈ ds -> 0 < count_in x ds.
Proof.
  induction ds as [|d ds IH]; intros Hx; [by apply not_elem_of_nil in Hx|].
  simpl. apply elem_of_cons in Hx as [->|Hx].
  - rewrite decide_True; [lia|done].
  - specialize (IH Hx). lia.
Qed.

Lemma update_cells_integrity (cells : Store) cell_id v expr deps t :
  dep_integrity cells ->
  creates_listed_cell cells cell_id = false ->
  dep_integrity (update_cells cells cell_id v expr deps t).
Proof.
  intros Hinv Hfresh. unfold update_cells.
  destruct (cells !! cell_id) as [old|] eqn:Hold;
  intros c ic d idd Hc Hd Hne Hdd;
  rewrite lookup_insert in Hc, Hdd;
  rewrite !foldl_modify_dependents_lookup in Hc, Hdd.
  all: destruct (decide (cell_id = c)) as [<-|Hcne];
       [ injection Hc as <-; simpl in Hd;
         rewrite decide_False in Hdd by congruence;
         destruct (cells !! d) as [d0|] eqn:Hd0; [|discriminate];
         injection Hdd as <-; simpl;
         apply iter_insert_elem, count_in_pos; done
       | destruct (cells !! c) as [c0|] eqn:Hc0; [|discriminate];
         injection Hc as <-; simpl in Hd ].
  - (* the set cell had a record *)
    destruct (decide (cell_id = d)) as [<-|Hdne].
    + injection Hdd as <-. simpl. by eapply (Hinv c c0 cell_id old).
    + destruct (cells !! d) as [d0|] eqn:Hd0; [|discriminate].
      injection Hdd as <-. simpl. apply iter_insert_sub.
      apply iter_remove_elem; [congruence|]. by eapply (Hinv c c0 d d0).
  - (* the set cell is new *)
    destruct (decide (cell_id = d)) as [<-|Hdne].
    + exfalso. unfold creates_listed_cell in Hfresh. rewrite Hold in Hfresh.
      apply not_true_iff_false in Hfresh. apply Hfresh.
      apply existsb_exists. exists (c, c0). split.
      * apply list_elem_of_In. by apply elem_of_map_to_list.
      * by apply bool_decide_eq_true.
    + destruct (cells !! d) as [d0|] eqn:Hd0; [|discriminate].
      injection Hdd as <-. simpl. apply iter_insert_sub. simpl.
      by eapply (Hinv c c0 d d0).
Qed.

Lemma worker_commit_integrity (cells : Store) cell_id t r :
  dep_integrity cells -> dep_integrity (worker_commit cells cell_id t r).
Proof.
  intros Hinv. unfold worker_commit.
  destruct (cells !! cell_id) as [cell|] eqn:Hcell; [|done].
  case_decide; [|done].
  intros c ic d idd Hc Hd Hne Hdd.
  rewrite lookup_insert in Hc, Hdd.
  destruct (decide (cell_id = c)) as [<-|Hcne];
  destruct (decide (cell_id = d)) as [<-|Hdne]; try congruence.
  - injection Hc as <-. simpl in *. by eapply Hinv.
  - injection Hdd as <-. simpl. by eapply Hinv.
  - by eapply Hinv.
Qed.

End Integrity.

Lemma replay_integrity_from (steps : list Step) (cells : Store) :
  dep_integrity cells -> no_listed_creation cells steps = true ->
  dep_integrity (replay cells steps).
Proof.
  revert cells. induction steps as [|st rest IH]; intros cells Hinv Hok; [done|].
  simpl in Hok. apply andb_true_iff in Hok as [Hst Hrest]. simpl.
  apply IH; [|done]. destruct st as [id v e deps t|id t r]; simpl.
  - apply update_cells_integrity; [done|]. by apply negb_true_iff.
  - by apply worker_commit_integrity.
Qed.

(** C2 (amended): in every store reached from the empty store by [set]
    commits and worker commits, in any interleaving, every cell [C] is a
    reverse dependency of every other cell [D] it lists in its forward
    dependencies and that has a record, provided no [set] creates the
    record of a cell that an existing cell already lists (the record a
    [set] creates starts with no reverse dependencies). *)
Theorem replay_dep_integrity (steps : list Step) :
  no_listed_creation ∅ steps = true -> dep_integrity (replay ∅ steps).
Proof.
  intros Hok. apply replay_integrity_from; [|done].
  intros c ic d id Hc. by rewrite lookup_empty in Hc.
Qed.

(** ** The worker's update order *)

Section UpdateOrder.
Context (cells : Store) (src : CellIdentifier).

Local Abbreviation R := (rtc (dependent_edge cells) src).

Lemma bfs_visit_dependent_within (current_id : CellIdentifier)
    (deps : list CellIdentifier) graph discovered to_process :
  R current_id ->
  (∀ d, d ∈ deps -> d ∈ dependents_of cells current_id) ->
  graph_within cells src graph -> (∀ q, q ∈ to_process -> R q) ->
  let '(graph', _, to_process') :=
    foldl (bfs_visit_dependent current_id) (graph, discovered, to_process) deps in
  graph_within cells src graph' ∧ ∀ q, q ∈ to_process' -> R q.
Proof.
  intros Hcur. revert graph discovered to_process.
  induction deps as [|dep deps IH]; intros graph discovered to_process Hdeps Hg Hq;
    [done|].
  simpl. assert (Hdep : R dep).
  { eapply rtc_r; [exact Hcur|]. apply Hdeps, elem_of_cons. by left. }
  assert (Hg' : graph_within cells src (<[dep := {[current_id]} ∪ default ∅ (graph !! dep)]> graph)).
  { intros k s Hk. rewrite lookup_insert in Hk. case_decide as Hkd.
    - subst k. injection Hk as <-. split; [done|].
      intros v Hv. apply elem_of_union in Hv as [Hv|Hv].
      + apply elem_of_singleton in Hv. by subst.
      + destruct (graph !! dep) as [s0|] eqn:Hs0; simpl in Hv.
        * by eapply Hg.
        * by apply not_elem_of_empty in Hv.
    - by eapply Hg. }
  case_decide.
  - apply IH; [|done|done]. intros d Hd. apply Hdeps, elem_of_cons. by right.
  - apply IH; [|done|].
    + intros d Hd. apply Hdeps, elem_of_cons. by right.
    + intros q Hq'. apply elem_of_app in Hq' as [Hq'|Hq']; [by apply Hq|].
      apply list_elem_of_singleton in Hq'. by subst.
Qed.

Lemma bfs_within fuel graph discovered to_process :
  graph_within cells src graph -> (∀ q, q ∈ to_process -> R q) ->
  graph_within cells src (bfs fuel cells graph discovered to_process).
Proof.
  revert graph discovered to_process.
  induction fuel as [|fuel IH]; intros graph discovered to_process Hg Hq; [done|].
  simpl. destruct to_process as [|current_id rest]; [done|].
  pose proof (bfs_visit_dependent_within current_id
                (elements (dependents_of cells current_id)) graph discovered rest)
    as Hv.
  destruct (foldl _ _ _) as [[graph' discovered'] to_process'].
  destruct Hv as [Hg' Hq'].
  - apply Hq, elem_of_cons. by left.
  - intros d Hd. by apply elem_of_elements in Hd.
  - done.
  - intros q Hq0. apply Hq, elem_of_cons. by right.
  - by apply IH.
Qed.

Lemma build_dependency_graph_within fuel :
  graph_within cells src (build_dependency_graph fuel cells src).
Proof.
  apply bfs_within.
  - intros k s Hk. by rewrite lookup_empty in Hk.
  - intros q Hq. apply list_elem_of_singleton in Hq. subst. constructor.
Qed.

Lemma visit_within graph fuel node st :
  graph_within cells src graph -> R node -> sorted_within cells src st ->
  sorted_within cells src (visit fuel graph node st).
Proof.
  intros Hg. revert node st.
  induction fuel as [|fuel IH]; intros node st Hn Hst; [done|].
  simpl. destruct st as [[pm tm] sorted].
  case_decide; [done|]. case_decide; [done|].
  assert (Hfold : ∀ (ds : list CellIdentifier) st',
            (∀ d, d ∈ ds -> R d) -> sorted_within cells src st' ->
            sorted_within cells src (foldl (fun st'' dep => visit fuel graph dep st'') st' ds)).
  { induction ds as [|d ds IHds]; intros st' Hds Hst'; [done|].
    simpl. apply IHds.
    - intros d' Hd'. apply Hds, elem_of_cons. by right.
    - apply IH; [|done]. apply Hds, elem_of_cons. by left. }
  specialize (Hfold (elements (default ∅ (graph !! node))) (pm, {[node]} ∪ tm, sorted)).
  destruct (foldl _ _ _) as [[pm' tm'] sorted'].
  simpl in Hfold |- *. intros y Hy.
  apply elem_of_app in Hy as [Hy|Hy].
  - apply Hfold; [|done|done].
    intros d Hd. apply elem_of_elements in Hd.
    destruct (graph !! node) as [s|] eqn:Hs; simpl in Hd.
    + by eapply Hg.
    + by apply not_elem_of_empty in Hd.
  - apply list_elem_of_singleton in Hy. by subst.
Qed.

Lemma topological_sort_within fuel graph :
  graph_within cells src graph -> ∀ y, y ∈ topological_sort fuel graph -> R y.
Proof.
  intros Hg. unfold topological_sort.
  assert (Hfold : ∀ (ks : list CellIdentifier) (st : Marks),
            (∀ k, k ∈ ks -> R k) -> sorted_within cells src st ->
            sorted_within cells src
              (foldl (fun st node =>
                        let '(permanent_marks, _, _) := st in
                        if decide (node ∈ permanent_marks) then st
                        else visit fuel graph node st) st ks)).
  { induction ks as [|k ks IHks]; intros st Hks Hst; [done|].
    simpl. apply IHks.
    - intros k' Hk'. apply Hks, elem_of_cons. by right.
    - destruct st as [[pm tm] sorted]. case_decide; [done|].
      apply visit_within; [done| |done]. apply Hks, elem_of_cons. by left. }
  specialize (Hfold (elements (dom graph)) (∅, ∅, [])).
  destruct (foldl _ _ _) as [[pm tm] order]. apply Hfold.
  - intros k Hk. apply elem_of_elements, elem_of_dom in Hk as [s Hs].
    by destruct (Hg k s Hs).
  - intros y Hy. by apply not_elem_of_nil in Hy.
Qed.

End UpdateOrder.

(** * Further properties of the code *)

(** ** [parse_range] and the dependencies of a range *)

Lemma contains_app (c : ascii) (s t : string) :
  contains c (s ++ t) = contains c s || contains c t.
Proof. induction s as [|a s IH]; simpl; [done|]. by rewrite IH, orb_assoc. Qed.

Lemma split_on_parts_sep_free (c : ascii) (s p : string) :
  p ∈ split_on c s -> contains c p = false.
Proof.
  revert p. induction s as [|a s IH]; intros p Hp; simpl in Hp.
  - apply list_elem_of_singleton in Hp. by subst.
  - destruct (Ascii.eqb a c) eqn:Hac.
    + apply elem_of_cons in Hp as [->|Hp]; [done|by apply IH].
    + destruct (split_on c s) as [|q qs] eqn:Hs.
      * apply list_elem_of_singleton in Hp. subst. simpl. by rewrite Hac.
      * apply elem_of_cons in Hp as [->|Hp].
        -- simpl. rewrite Hac. simpl. apply (IH q). apply elem_of_cons. by left.
        -- apply (IH p). apply elem_of_cons. by right.
Qed.

Lemma split_on_sep_free (c : ascii) (p : string) :
  contains c p = false -> split_on c p = [p].
Proof.
  induction p as [|a p IH]; intros Hp; simpl in *; [done|].
  apply orb_false_iff in Hp as [Ha Hp]. rewrite Ha, IH by done. done.
Qed.

Lemma split_on_app_sep (c : ascii) (p0 s : string) :
  contains c p0 = false -> split_on c (p0 ++ String c s) = p0 :: split_on c s.
Proof.
  induction p0 as [|a p0 IH]; intros Hp; simpl in *.
  - by rewrite Ascii.eqb_refl.
  - apply orb_false_iff in Hp as [Ha Hp]. by rewrite Ha, IH.
Qed.

Lemma split_on_nonempty (c : ascii) (s : string) : split_on c s ≠ [].
Proof.
  destruct s as [|a s]; simpl; [done|].
  destruct (Ascii.eqb a c); [done|]. by destruct (split_on c s).
Qed.

Lemma split_on_one (c : ascii) (s p : string) :
  split_on c s = [p] -> s = p.
Proof.
  revert p. induction s as [|a s IH]; intros p Hs; simpl in Hs.
  - by injection Hs.
  - destruct (Ascii.eqb a c).
    + injection Hs as _ Hs. exfalso. exact (split_on_nonempty c s Hs).
    + destruct (split_on c s) as [|q qs] eqn:Hq;
        [exfalso; exact (split_on_nonempty c s Hq)|].
      injection Hs as <- ->. by rewrite (IH q).
Qed.

Lemma split_on_two (c : ascii) (s p0 p1 : string) :
  split_on c s = [p0; p1] -> s = (p0 ++ String c p1)%string.
Proof.
  revert p0. induction s as [|a s IH]; intros p0 Hs; simpl in Hs.
  - discriminate.
  - destruct (Ascii.eqb a c) eqn:Hac.
    + injection Hs as <- Hs. apply Ascii.eqb_eq in Hac. subst. simpl.
      by rewrite (split_on_one c s p1).
    + destruct (split_on c s) as [|q qs] eqn:Hq; [discriminate|].
      injection Hs as <- ->. simpl. by rewrite (IH q).
Qed.

Lemma NoDup_range_incl (a b : N) : NoDup (range_incl a b).
Proof.
  unfold range_incl. destruct (a <=? b)%N; [|constructor].
  apply NoDup_fmap_2; [|apply NoDup_seq]. intros x y Hxy. lia.
Qed.

Lemma elem_of_flat_map {A B} (f : A -> list B) (l : list A) (y : B) :
  y ∈ flat_map f l <-> ∃ x, x ∈ l ∧ y ∈ f x.
Proof.
  rewrite list_elem_of_In, in_flat_map. split.
  - intros (x & Hx & Hy). exists x. split; by apply list_elem_of_In.
  - intros (x & Hx & Hy). exists x. split; by apply list_elem_of_In.
Qed.

Lemma NoDup_flat_map {A B} (f : A -> list B) (l : list A) :
  NoDup l -> (∀ x, NoDup (f x)) ->
  (∀ x x' y, x ≠ x' -> y ∈ f x -> y ∈ f x' -> False) ->
  NoDup (flat_map f l).
Proof.
  intros Hl Hf Hdis. induction Hl as [|x l Hx Hl IH]; simpl; [constructor|].
  apply NoDup_app. split; [done|]. split; [|done].
  intros y Hy Hy'. apply elem_of_flat_map in Hy' as (x' & Hx' & Hy').
  apply (Hdis x x' y); [|done|done]. intros ->. contradiction.
Qed.

Lemma elem_of_range_cells (start end_ d : CellIdentifier) :
  d ∈ range_cells start end_ <->
  (col start <= col d <= col end_)%N ∧ (row start <= row d <= row end_)%N.
Proof.
  unfold range_cells. rewrite elem_of_flat_map. split.
  - intros (r & Hr & Hd). apply list_elem_of_fmap in Hd as (c & -> & Hc).
    apply elem_of_range_incl in Hr, Hc. simpl. lia.
  - intros [Hc Hr]. exists (row d). split; [by apply elem_of_range_incl|].
    apply list_elem_of_fmap. exists (col d). split; [by destruct d|].
    by apply elem_of_range_incl.
Qed.

Lemma NoDup_range_cells (start end_ : CellIdentifier) :
  NoDup (range_cells start end_).
Proof.
  unfold range_cells. apply NoDup_flat_map; [apply NoDup_range_incl| |].
  - intros r. apply NoDup_fmap_2; [|apply NoDup_range_incl].
    intros x y Hxy. by injection Hxy.
  - intros r r' d Hrr Hd Hd'.
    apply list_elem_of_fmap in Hd as (c & -> & _).
    apply list_elem_of_fmap in Hd' as (c' & Hcc & _).
    injection Hcc as _ Hr. congruence.
Qed.

Section ParseRange.
Context `{Lib : CellExprLib}.

(** X1: [parse_range] accepts exactly the strings with one underscore whose
    two halves parse as cell identifiers, and returns those identifiers. *)
Theorem parse_range_iff (range : string) (start end_ : CellIdentifier) :
  parse_range range = Some (start, end_) <->
  ∃ p0 p1, range = (p0 ++ String "_" p1)%string ∧
           contains "_" p0 = false ∧ contains "_" p1 = false ∧
           parse_cell_identifier p0 = Some start ∧
           parse_cell_identifier p1 = Some end_.
Proof.
  unfold parse_range. split.
  - destruct (split_on "_" range) as [|p0 [|p1 [|? ?]]] eqn:Hs; try discriminate.
    destruct (parse_cell_identifier p0) eqn:H0; [|discriminate].
    destruct (parse_cell_identifier p1) eqn:H1; [|discriminate].
    intros [= <- <-]. exists p0, p1. split; [by apply split_on_two|].
    split; [apply (split_on_parts_sep_free "_" range); rewrite Hs;
            apply elem_of_cons; by left|].
    split; [apply (split_on_parts_sep_free "_" range); rewrite Hs;
            apply elem_of_cons; right; apply elem_of_cons; by left|].
    done.
  - intros (p0 & p1 & -> & H0 & H1 & Hp0 & Hp1).
    rewrite split_on_app_sep, split_on_sep_free by done.
    by rewrite Hp0, Hp1.
Qed.

(** X2: The dependencies [set] records for a range token [S_E] are the cells of
    the rectangle from [S] to [E], each listed once. *)
Theorem range_token_dependencies (var_name : string) (start end_ : CellIdentifier) :
  contains "_" var_name = true -> parse_range var_name = Some (start, end_) ->
  NoDup (var_dependencies var_name) ∧
  ∀ d, d ∈ var_dependencies var_name <->
       (col start <= col d <= col end_)%N ∧ (row start <= row d <= row end_)%N.
Proof.
  intros Hus Hpr. unfold var_dependencies. rewrite Hus, Hpr. simpl.
  split; [apply NoDup_range_cells|]. intros d. apply elem_of_range_cells.
Qed.

End ParseRange.

(** ** The [set] commit ([update_cell_info]) *)

Section SetCommit.

Lemma iter_remove_pos (c : CellIdentifier) n (s : gset CellIdentifier) :
  0 < n -> Nat.iter n (fun s' => s' ∖ {[c]}) s = s ∖ {[c]}.
Proof.
  intros Hn. destruct n as [|n]; [lia|]. clear Hn. simpl.
  induction n as [|n IH]; simpl; [done|]. rewrite IH. set_solver.
Qed.

Lemma iter_add_pos (c : CellIdentifier) n (s : gset CellIdentifier) :
  0 < n -> Nat.iter n (fun s' => {[c]} ∪ s') s = {[c]} ∪ s.
Proof.
  intros Hn. destruct n as [|n]; [lia|]. clear Hn. simpl.
  induction n as [|n IH]; simpl; [done|]. rewrite IH. set_solver.
Qed.

Lemma count_in_zero (x : CellIdentifier) ds : count_in x ds = 0 <-> x ∉ ds.
Proof.
  induction ds as [|d ds IH]; simpl.
  - split; [intros _; apply not_elem_of_nil|done].
  - rewrite elem_of_cons. case_decide; [subst; split; [lia|tauto]|].
    rewrite IH. split; [intros Hx [->|Hx']; [done|tauto]|tauto].
Qed.

Lemma update_cells_lookup_ne (cells : Store) cell_id v expr deps t x :
  x ≠ cell_id ->
  update_cells cells cell_id v expr deps t !! x =
  (fun info => set_dependents info
     (Nat.iter (count_in x deps) (fun s => {[cell_id]} ∪ s)
        (Nat.iter (count_in x (match cells !! cell_id with
                               | Some o => dependencies o | None => [] end))
                  (fun s => s ∖ {[cell_id]}) (dependents info))))
    <$> cells !! x.
Proof.
  intros Hne. unfold update_cells.
  destruct (cells !! cell_id) as [old|] eqn:Hold;
    rewrite lookup_insert_ne by congruence;
    rewrite !foldl_modify_dependents_lookup;
    destruct (cells !! x); reflexivity.
Qed.

Lemma update_cells_lookup_eq (cells : Store) cell_id v expr deps t :
  update_cells cells cell_id v expr deps t !! cell_id =
  Some {| value := v; expression := expr; dependencies := deps;
          dependents := match cells !! cell_id with
                        | Some o => dependents o | None => ∅ end;
          last_update_time := t |}.
Proof.
  unfold update_cells.
  destruct (cells !! cell_id); by rewrite lookup_insert_eq.
Qed.

Lemma update_cells_effect_holds (cells : Store) cell_id v expr deps t :
  set_commit_effect cells (update_cells cells cell_id v expr deps t)
                    cell_id v expr deps t.
Proof.
  unfold set_commit_effect. split; [apply update_cells_lookup_eq|].
  intros x Hx. rewrite update_cells_lookup_ne by done.
  destruct (cells !! x) as [i|]; simpl; [|done].
  do 4 (split; [reflexivity|]). split; [|split].
  - intros y Hy.
    destruct (decide (0 < count_in x deps)) as [Ha|Ha];
      [rewrite iter_add_pos by done|replace (count_in x deps) with 0 by lia; simpl];
    (destruct (decide (0 < count_in x (match cells !! cell_id with
                        | Some o => dependencies o | None => [] end))) as [Hr|Hr];
      [rewrite iter_remove_pos by done
      |replace (count_in x _) with 0 by lia; simpl]); set_solver.
  - intros Hy.
    destruct (decide (0 < count_in x deps)) as [Ha|Ha]; 
      [left; destruct (decide (x ∈ deps)) as [|Hn]; [done|];
       apply count_in_zero in Hn; lia|].
    right. replace (count_in x deps) with 0 in Hy by lia. simpl in Hy.
    destruct (decide (0 < count_in x (match cells !! cell_id with
                        | Some o => dependencies o | None => [] end))) as [Hr|Hr].
    + rewrite iter_remove_pos in Hy by done. set_solver.
    + replace (count_in x _) with 0 in Hy by lia. simpl in Hy. split; [|done].
      apply count_in_zero. lia.
  - intros [Hd|[Hd Hy]].
    + rewrite iter_add_pos by (by apply count_in_pos). set_solver.
    + apply iter_insert_sub. rewrite (proj2 (count_in_zero _ _) Hd). done.
Qed.

End SetCommit.

(** X3: A [set] commit of [cell_id] writes [cell_id]'s record (new value,
    expression, dependencies and time, previous reverse dependencies kept)
    and changes nothing else but the membership of [cell_id] in the
    reverse dependencies of other cells: it is added to every existing
    cell of the new dependencies, and removed from the existing cells that
    were only among the old ones.  No record is created but [cell_id]'s and
    none is deleted. *)
Theorem update_cells_effect (cells : Store) (cell_id : CellIdentifier)
    (v : CellValue.t) (expr : string) (deps : list CellIdentifier) (t : nat) :
  set_commit_effect cells (update_cells cells cell_id v expr deps t)
                    cell_id v expr deps t.
Proof. apply update_cells_effect_holds. Qed.

Lemma set_dependents_twice (i : CellInfo) s1 s2 :
  set_dependents (set_dependents i s1) s2 = set_dependents i s2.
Proof. reflexivity. Qed.

(** X4: Committing the same [set] twice leaves the store of a single commit. *)
Theorem update_cells_idempotent (cells : Store) (cell_id : CellIdentifier)
    (v : CellValue.t) (expr : string) (deps : list CellIdentifier) (t : nat) :
  update_cells (update_cells cells cell_id v expr deps t) cell_id v expr deps t =
  update_cells cells cell_id v expr deps t.
Proof.
  apply map_eq. intros x. destruct (decide (x = cell_id)) as [->|Hne].
  - rewrite !update_cells_lookup_eq. reflexivity.
  - rewrite (update_cells_lookup_ne _ _ _ _ _ _ x Hne).
    rewrite update_cells_lookup_eq.
    rewrite (update_cells_lookup_ne _ _ _ _ _ _ x Hne).
    destruct (cells !! x) as [i|]; [|done]. simpl. f_equal.
    rewrite set_dependents_twice. f_equal. simpl.
    destruct (decide (0 < count_in x deps)) as [Ha|Ha].
    + remember (Nat.iter _ (fun s => s ∖ {[cell_id]}) (dependents i)) as S0.
      rewrite !(iter_add_pos _ _ _ Ha), (iter_remove_pos _ _ _ Ha).
      clear HeqS0. apply set_eq. intros y.
      destruct (decide (y = cell_id)); set_solver.
    + by replace (count_in x deps) with 0 by lia.
Qed.

(** ** Recorded reverse dependencies are genuine *)

Lemma update_cells_reverse_integrity (cells : Store) cell_id v expr deps t :
  reverse_integrity cells ->
  reverse_integrity (update_cells cells cell_id v expr deps t).
Proof.
  intros Hinv. pose proof (update_cells_effect_holds cells cell_id v expr deps t)
    as [Hc Hother].
  set (cells' := update_cells cells cell_id v expr deps t) in *.
  (* the records of cells other than [cell_id] keep their dependencies *)
  assert (Hdeps : ∀ y iy, y ≠ cell_id -> cells !! y = Some iy ->
            ∃ iy', cells' !! y = Some iy' ∧ dependencies iy' = dependencies iy).
  { intros y iy Hy Hiy. specialize (Hother y Hy). rewrite Hiy in Hother.
    destruct (cells' !! y) as [iy'|]; [|done].
    exists iy'. split; [done|]. by destruct Hother as (_ & _ & ? & _). }
  intros x ix y Hx Hy. destruct (decide (x = cell_id)) as [->|Hxne].
  - rewrite Hc in Hx. injection Hx as <-. simpl in Hy.
    destruct (cells !! cell_id) as [old|] eqn:Hold;
      [|by apply not_elem_of_empty in Hy].
    destruct (Hinv cell_id old y Hold Hy) as [Hyne (iy & Hiy & Hin)].
    split; [done|]. destruct (Hdeps y iy Hyne Hiy) as (iy' & Hiy' & Hd).
    exists iy'. by rewrite Hd.
  - specialize (Hother x Hxne). rewrite Hx in Hother.
    destruct (cells !! x) as [ix0|] eqn:Hx0; [|done].
    destruct Hother as (_ & _ & _ & _ & Hys & Hcid).
    destruct (decide (y = cell_id)) as [->|Hyne].
    + split; [congruence|]. apply Hcid in Hy as [Hd|[Hd Hy]].
      * eexists. split; [exact Hc|]. done.
      * exfalso. destruct (Hinv x ix0 cell_id Hx0 Hy) as [_ (iy & Hiy & Hin)].
        rewrite Hiy in Hd. contradiction.
    + apply Hys in Hy; [|done].
      destruct (Hinv x ix0 y Hx0 Hy) as [Hyx (iy & Hiy & Hin)].
      split; [done|]. destruct (Hdeps y iy Hyne Hiy) as (iy' & Hiy' & Hd).
      exists iy'. by rewrite Hd.
Qed.

Lemma worker_commit_lookup (cells : Store) cell_id t r x :
  match cells !! x, worker_commit cells cell_id t r !! x with
  | None, None => True
  | Some i, Some i' =>
      expression i' = expression i ∧ dependencies i' = dependencies i ∧
      dependents i' = dependents i ∧ last_update_time i <= last_update_time i'
  | _, _ => False
  end.
Proof.
  unfold worker_commit.
  assert (Hrefl : match cells !! x, cells !! x with
                  | None, None => True
                  | Some i, Some i' =>
                      expression i' = expression i ∧ dependencies i' = dependencies i ∧
                      dependents i' = dependents i ∧
                      last_update_time i <= last_update_time i'
                  | _, _ => False
                  end).
  { destruct (cells !! x); [repeat split; lia|done]. }
  destruct (cells !! cell_id) as [cell|] eqn:Hcell; [|done].
  case_decide as Hlt; [|done].
  destruct (decide (x = cell_id)) as [->|Hne].
  - rewrite Hcell, lookup_insert_eq. simpl. repeat split; lia.
  - by rewrite lookup_insert_ne by congruence.
Qed.

Lemma records_kept_reverse_integrity (cells cells' : Store) :
  records_kept cells cells' -> reverse_integrity cells -> reverse_integrity cells'.
Proof.
  intros Hk Hinv x ix' y Hx Hy. pose proof (Hk x) as Hkx. rewrite Hx in Hkx.
  destruct (cells !! x) as [ix|] eqn:Hx0; [|done].
  destruct Hkx as (_ & _ & Hd & _). rewrite Hd in Hy.
  destruct (Hinv x ix y Hx0 Hy) as [Hne (iy & Hiy & Hin)].
  split; [done|]. pose proof (Hk y) as Hky. rewrite Hiy in Hky.
  destruct (cells' !! y) as [iy'|]; [|done].
  exists iy'. destruct Hky as (_ & Hdy & _). by rewrite Hdy.
Qed.

Lemma worker_commit_records_kept (cells : Store) cell_id t r :
  records_kept cells (worker_commit cells cell_id t r).
Proof. intros x. apply worker_commit_lookup. Qed.

(** X6: In every store reached from the empty store by [set] commits and
    worker commits, in any interleaving, a cell [y] listed in the reverse
    dependencies of a cell [x] is another cell that has a record and lists
    [x] among its dependencies. *)
Theorem replay_reverse_integrity (steps : list Step) :
  reverse_integrity (replay ∅ steps).
Proof.
  assert (Hgen : ∀ cells, reverse_integrity cells ->
                   reverse_integrity (replay cells steps)).
  { induction steps as [|st rest IH]; intros cells Hinv; [done|].
    simpl. apply IH. destruct st as [id v e deps t|id t r]; simpl.
    - by apply update_cells_reverse_integrity.
    - eapply records_kept_reverse_integrity; [|done].
      apply worker_commit_records_kept. }
  apply Hgen. intros x ix y Hx. by rewrite lookup_empty in Hx.
Qed.

(** ** The worker *)

Section WorkerFacts.
Context `{Lib : CellExprLib}.

Lemma records_kept_refl (cells : Store) : records_kept cells cells.
Proof. intros x. destruct (cells !! x); [repeat split; lia|done]. Qed.

Lemma records_kept_trans (c1 c2 c3 : Store) :
  records_kept c1 c2 -> records_kept c2 c3 -> records_kept c1 c3.
Proof.
  intros H12 H23 x. specialize (H12 x). specialize (H23 x).
  destruct (c1 !! x), (c2 !! x), (c3 !! x); try done.
  destruct H12 as (? & ? & ? & ?), H23 as (? & ? & ? & ?).
  repeat split; congruence || lia.
Qed.

Lemma recompute_records_kept (cells : Store) cell_id t :
  records_kept cells (recompute cells cell_id t).
Proof.
  unfold recompute. destruct (cells !! cell_id); [|apply records_kept_refl].
  apply worker_commit_records_kept.
Qed.

Lemma recompute_all_records_kept (cells : Store) order now :
  records_kept cells (recompute_all cells order now).
Proof.
  revert cells now. induction order as [|c rest IH]; intros cells now; simpl.
  - apply records_kept_refl.
  - eapply records_kept_trans; [apply recompute_records_kept|apply IH].
Qed.

(** X7: The worker, whatever messages it handles, never creates or deletes a
    record, never changes a cell's expression, dependencies or reverse
    dependencies, and never moves a time stamp backwards. *)
Theorem process_cells_update_records_kept (cells : Store)
    (msgs : list UpdateMessage) (now : nat) :
  records_kept cells (process_cells_update cells msgs now).
Proof.
  revert cells now. induction msgs as [|[cell_id|] rest IH]; intros cells now; simpl.
  - apply records_kept_refl.
  - eapply records_kept_trans; [apply recompute_all_records_kept|apply IH].
  - apply records_kept_refl.
Qed.

Lemma process_cells_update_shutdown (cells : Store) (msgs rest : list UpdateMessage)
    (now : nat) :
  process_cells_update cells (msgs ++ Shutdown :: rest) now =
  process_cells_update cells msgs now.
Proof.
  revert cells now. induction msgs as [|[cell_id|] msgs IH]; intros cells now;
    simpl; [done| |done].
  apply IH.
Qed.

(** X8: Dropping a [Spreadsheet] whose worker is running queues [Shutdown]
    behind the pending updates: the worker handles those updates as
    before and ignores every message sent after the drop. *)
Theorem drop_stops_worker (sh : Sheet) (cells0 : Store)
    (later : list UpdateMessage) (now : nat) :
  receiver_alive sh = true ->
  process_cells_update cells0 (queue (drop_spreadsheet sh) ++ later) now =
  process_cells_update cells0 (queue sh) now.
Proof.
  intros Ha. unfold drop_spreadsheet. rewrite Ha. simpl.
  rewrite <- app_assoc. apply process_cells_update_shutdown.
Qed.

Lemma recompute_lookup_ne (cells : Store) cell_id t x :
  x ≠ cell_id -> recompute cells cell_id t !! x = cells !! x.
Proof.
  intros Hne. unfold recompute. destruct (cells !! cell_id); [|done].
  unfold worker_commit. destruct (cells !! cell_id); [|done].
  case_decide; [|done]. by rewrite lookup_insert_ne by congruence.
Qed.

Lemma recompute_all_lookup_notin (cells : Store) order now x :
  x ∉ order -> recompute_all cells order now !! x = cells !! x.
Proof.
  revert cells now. induction order as [|c rest IH]; intros cells now Hx; simpl; [done|].
  rewrite IH by (intros Hin; apply Hx, elem_of_cons; by right).
  apply recompute_lookup_ne. intros ->. apply Hx, elem_of_cons. by left.
Qed.

(** X9: Handling a change of [cell_id] leaves every cell that does not
    transitively depend on [cell_id] (through reverse dependencies) as it
    was. *)
Theorem process_cell_update_unreachable (cells : Store)
    (cell_id x : CellIdentifier) (now : nat) :
  ¬ rtc (dependent_edge cells) cell_id x ->
  process_cell_update cells cell_id now !! x = cells !! x.
Proof.
  intros Hx. unfold process_cell_update. apply recompute_all_lookup_notin.
  intros Hin. apply Hx. unfold update_order in Hin.
  eapply topological_sort_within; [|exact Hin].
  apply build_dependency_graph_within.
Qed.

Lemma update_order_no_dependents (cells : Store) (cell_id : CellIdentifier) :
  dependents_of cells cell_id = ∅ -> update_order cells cell_id = [].
Proof.
  intros Hd. unfold update_order, worker_fuel, build_dependency_graph. simpl.
  rewrite Hd, elements_empty. simpl.
  destruct (size cells + _); reflexivity.
Qed.

(** X10: A change of a cell with no reverse dependencies recomputes nothing,
    not even the cell itself, and leaves the store unchanged. *)
Theorem process_cell_update_no_dependents (cells : Store)
    (cell_id : CellIdentifier) (now : nat) :
  dependents_of cells cell_id = ∅ ->
  update_order cells cell_id = [] ∧ process_cell_update cells cell_id now = cells.
Proof.
  intros Hd. pose proof (update_order_no_dependents cells cell_id Hd) as Ho.
  split; [done|]. unfold process_cell_update. by rewrite Ho.
Qed.

End WorkerFacts.

(** ** The update order has no repetitions *)

Section NoRepeat.

Lemma visit_marks_ok (graph : Graph) fuel node pm tm sorted :
  marks_ok (pm, tm, sorted) ->
  let '(pm', tm', sorted') := visit fuel graph node (pm, tm, sorted) in
  marks_ok (pm', tm', sorted') ∧ tm' = tm.
Proof.
  revert node pm tm sorted.
  induction fuel as [|fuel IH]; intros node pm tm sorted Hok; simpl; [done|].
  case_decide as Hpm; [done|]. case_decide as Htm; [done|].
  assert (Hfold : ∀ (ds : list CellIdentifier) pm0 sorted0,
            marks_ok (pm0, {[node]} ∪ tm, sorted0) ->
            let '(pm', tm', sorted') :=
              foldl (fun st' dep => visit fuel graph dep st')
                    (pm0, {[node]} ∪ tm, sorted0) ds in
            marks_ok (pm', tm', sorted') ∧ tm' = {[node]} ∪ tm).
  { induction ds as [|d ds IHds]; intros pm0 sorted0 Hok0; simpl; [done|].
    pose proof (IH d pm0 ({[node]} ∪ tm) sorted0 Hok0) as Hv.
    destruct (visit fuel graph d _) as [[pm1 tm1] sorted1].
    destruct Hv as [Hok1 ->]. by apply IHds. }
  destruct Hok as (Hnd & Hmem & Hdis).
  specialize (Hfold (elements (default ∅ (graph !! node))) pm sorted).
  destruct (foldl _ _ _) as [[pm' tm'] sorted'].
  destruct Hfold as [(Hnd' & Hmem' & Hdis') ->].
  { split; [done|]. split; [done|]. set_solver. }
  assert (Hn : node ∉ sorted').
  { intros Hin. apply Hmem' in Hin. set_solver. }
  split; [split; [|split]|].
  - apply NoDup_app. split; [done|]. split; [|apply NoDup_singleton].
    intros y Hy Hy'. apply list_elem_of_singleton in Hy'. by subst.
  - intros y. rewrite elem_of_app, list_elem_of_singleton, Hmem'. set_solver.
  - set_solver.
  - apply set_eq. intros y. destruct (decide (y = node)); set_solver.
Qed.

Lemma topological_sort_NoDup (fuel : nat) (graph : Graph) :
  NoDup (topological_sort fuel graph).
Proof.
  unfold topological_sort.
  assert (Hfold : ∀ (ks : list CellIdentifier) (st : Marks), marks_ok st ->
            marks_ok (foldl (fun st node =>
                        let '(permanent_marks, _, _) := st in
                        if decide (node ∈ permanent_marks) then st
                        else visit fuel graph node st) st ks)).
  { induction ks as [|k ks IHks]; intros st Hst; simpl; [done|].
    apply IHks. destruct st as [[pm tm] sorted]. case_decide; [done|].
    pose proof (visit_marks_ok graph fuel k pm tm sorted Hst) as Hv.
    destruct (visit fuel graph k _) as [[pm' tm'] sorted']. by destruct Hv. }
  specialize (Hfold (elements (dom graph)) (∅, ∅, [])).
  destruct (foldl _ _ _) as [[pm tm] order]. destruct Hfold as [Hnd _]; [|done].
  split; [constructor|]. split; [|set_solver].
  intros y. split; [intros Hy; by apply not_elem_of_nil in Hy|set_solver].
Qed.

(** X11: The worker recomputes each cell at most once per change event: the
    update order has no repeated cell. *)
Theorem update_order_NoDup (cells : Store) (cell_id : CellIdentifier) :
  NoDup (update_order cells cell_id).
Proof. apply topological_sort_NoDup. Qed.

End NoRepeat.

(** ** The changed cell is in its own update order *)

Section OriginInOrder.

Lemma all_dependents_spec (cells : Store) (y : CellIdentifier) :
  y ∈ all_dependents cells <-> ∃ k c, cells !! k = Some c ∧ y ∈ dependents c.
Proof.
  unfold all_dependents.
  induction cells as [|i x m Hi IH] using map_ind.
  - rewrite map_fold_empty. split; [set_solver|].
    intros (k & c & Hk & _). by rewrite lookup_empty in Hk.
  - rewrite (map_fold_insert_L (fun _ c acc => dependents c ∪ acc))
      by first [done | intros; set_solver].
    rewrite elem_of_union, IH. split.
    + intros [Hy|(k & c & Hk & Hy)].
      * exists i, x. by rewrite lookup_insert_eq.
      * exists k, c. rewrite lookup_insert_ne; [done|]. intros ->. congruence.
    + intros (k & c & Hk & Hy). rewrite lookup_insert in Hk. case_decide.
      * subst k. injection Hk as <-. by left.
      * right. eauto.
Qed.

Lemma size_union_le (X Y : gset CellIdentifier) : size (X ∪ Y) <= size X + size Y.
Proof.
  rewrite size_union_alt.
  pose proof (subseteq_size (Y ∖ X) Y ltac:(set_solver)). lia.
Qed.

Lemma size_all_dependents (cells : Store) :
  size (all_dependents cells) <=
  map_fold (fun _ c acc => size (dependents c) + acc) 0 cells.
Proof.
  unfold all_dependents.
  induction cells as [|i x m Hi IH] using map_ind.
  - rewrite !map_fold_empty, size_empty. lia.
  - rewrite (map_fold_insert_L (fun _ c acc => dependents c ∪ acc))
      by first [done | intros; set_solver].
    rewrite (map_fold_insert_L (fun _ c acc => size (dependents c) + acc))
      by first [done | intros; lia].
    pose proof (size_union_le (dependents x)
                  (map_fold (fun _ c acc => dependents c ∪ acc) ∅ m)). lia.
Qed.

Lemma dependents_of_record (cells : Store) (cur d : CellIdentifier) :
  d ∈ dependents_of cells cur -> ∃ c, cells !! cur = Some c ∧ d ∈ dependents c.
Proof.
  unfold dependents_of. destruct (cells !! cur) as [c|]; [eauto|set_solver].
Qed.

Lemma graph_grows_refl (graph : Graph) : graph_grows graph graph.
Proof. intros k s Hk. by exists s. Qed.

Lemma graph_grows_trans (g1 g2 g3 : Graph) :
  graph_grows g1 g2 -> graph_grows g2 g3 -> graph_grows g1 g3.
Proof.
  intros H12 H23 k s Hk.
  destruct (H12 k s Hk) as (s2 & Hk2 & Hs2).
  destruct (H23 k s2 Hk2) as (s3 & Hk3 & Hs3).
  exists s3. split; [done|set_solver].
Qed.

Lemma bfs_visit_dependent_bounded (cells : Store) (cur : CellIdentifier)
    (deps : list CellIdentifier) graph discovered to_process :
  (∀ d, d ∈ deps -> d ∈ dependents_of cells cur) ->
  graph_bounded cells graph ->
  let '(graph', _, _) :=
    foldl (bfs_visit_dependent cur) (graph, discovered, to_process) deps in
  graph_bounded cells graph' ∧ graph_grows graph graph' ∧
  ∀ d, d ∈ deps -> ∃ s, graph' !! d = Some s ∧ cur ∈ s.
Proof.
  revert graph discovered to_process.
  induction deps as [|dep deps IH]; intros graph discovered to_process Hdeps Hb.
  - split; [done|]. split; [apply graph_grows_refl|].
    intros d Hd. by apply not_elem_of_nil in Hd.
  - simpl.
    set (graph1 := <[dep := {[cur]} ∪ default ∅ (graph !! dep)]> graph).
    assert (Hdep : dep ∈ dependents_of cells cur).
    { apply Hdeps, elem_of_cons. by left. }
    destruct (dependents_of_record cells cur dep Hdep) as (c & Hc & Hdc).
    assert (Hb1 : graph_bounded cells graph1).
    { intros k s Hk. unfold graph1 in Hk. rewrite lookup_insert in Hk.
      case_decide as Hkd.
      - subst k. injection Hk as <-. split.
        + apply all_dependents_spec. eauto.
        + intros v Hv. apply elem_of_union in Hv as [Hv|Hv].
          * apply elem_of_singleton in Hv. subst v. by apply elem_of_dom.
          * destruct (graph !! dep) as [s0|] eqn:Hs0; simpl in Hv.
            -- by apply (Hb dep s0 Hs0).
            -- by apply not_elem_of_empty in Hv.
      - by apply Hb. }
    assert (Hg1 : graph_grows graph graph1).
    { intros k s Hk. unfold graph1. rewrite lookup_insert. case_decide.
      - subst k. eexists. split; [done|]. rewrite Hk. set_solver.
      - by exists s. }
    assert (Hin1 : ∃ s, graph1 !! dep = Some s ∧ cur ∈ s).
    { unfold graph1. rewrite lookup_insert_eq. eexists. split; [done|]. set_solver. }
    assert (Hdeps' : ∀ d, d ∈ deps -> d ∈ dependents_of cells cur).
    { intros d Hd. apply Hdeps, elem_of_cons. by right. }
    assert (Hrest : ∀ discovered' to_process',
              let '(graph', _, _) :=
                foldl (bfs_visit_dependent cur) (graph1, discovered', to_process') deps in
              graph_bounded cells graph' ∧ graph_grows graph graph' ∧
              ∀ d, d ∈ dep :: deps -> ∃ s, graph' !! d = Some s ∧ cur ∈ s).
    { intros discovered' to_process'.
      pose proof (IH graph1 discovered' to_process' Hdeps' Hb1) as Hf.
      destruct (foldl _ _ _) as [[graph' ?] ?].
      destruct Hf as (Hb' & Hg' & Hin').
      split; [done|]. split; [by eapply graph_grows_trans|].
      intros d Hd. apply elem_of_cons in Hd as [->|Hd]; [|by apply Hin'].
      destruct Hin1 as (s & Hs & Hcur).
      destruct (Hg' dep s Hs) as (s' & Hs' & Hss').
      exists s'. split; [done|set_solver]. }
    unfold bfs_visit_dependent. fold graph1.
    case_decide; apply Hrest.
Qed.

Lemma bfs_bounded (cells : Store) fuel graph discovered to_process :
  graph_bounded cells graph ->
  graph_bounded cells (bfs fuel cells graph discovered to_process) ∧
  graph_grows graph (bfs fuel cells graph discovered to_process).
Proof.
  revert graph discovered to_process.
  induction fuel as [|fuel IH]; intros graph discovered to_process Hb.
  - split; [done|apply graph_grows_refl].
  - simpl. destruct to_process as [|cur rest]; [split; [done|apply graph_grows_refl]|].
    pose proof (bfs_visit_dependent_bounded cells cur
                  (elements (dependents_of cells cur)) graph discovered rest) as Hv.
    destruct (foldl _ _ _) as [[graph' discovered'] to_process'].
    destruct Hv as (Hb' & Hg' & _).
    + intros d Hd. by apply elem_of_elements in Hd.
    + done.
    + destruct (IH graph' discovered' to_process' Hb') as [Hb'' Hg''].
      split; [done|]. by eapply graph_grows_trans.
Qed.

Lemma build_dependency_graph_bounded (cells : Store) fuel cell_id :
  graph_bounded cells (build_dependency_graph fuel cells cell_id).
Proof.
  apply bfs_bounded. intros k s Hk. by rewrite lookup_empty in Hk.
Qed.

Lemma build_dependency_graph_origin (cells : Store) fuel cell_id d :
  d ∈ dependents_of cells cell_id ->
  ∃ s, build_dependency_graph (S fuel) cells cell_id !! d = Some s ∧ cell_id ∈ s.
Proof.
  intros Hd. unfold build_dependency_graph. simpl.
  pose proof (bfs_visit_dependent_bounded cells cell_id
                (elements (dependents_of cells cell_id)) ∅ {[cell_id]} []) as Hv.
  destruct (foldl _ _ _) as [[graph' discovered'] to_process'].
  destruct Hv as (Hb' & _ & Hin).
  - intros d' Hd'. by apply elem_of_elements in Hd'.
  - intros k s Hk. by rewrite lookup_empty in Hk.
  - destruct (Hin d) as (s & Hs & Hcur); [by apply elem_of_elements|].
    destruct (bfs_bounded cells fuel graph' discovered' to_process' Hb') as [_ Hg].
    destruct (Hg d s Hs) as (s' & Hs' & Hss').
    exists s'. split; [done|set_solver].
Qed.

Lemma visit_tm (graph : Graph) fuel node pm tm sorted :
  let '(_, tm', _) := visit fuel graph node (pm, tm, sorted) in tm' = tm.
Proof.
  revert node pm tm sorted.
  induction fuel as [|fuel IH]; intros node pm tm sorted; simpl; [done|].
  case_decide as Hpm; [done|]. case_decide as Htm; [done|].
  assert (Hfold : ∀ (ds : list CellIdentifier) pm0 sorted0,
            let '(_, tm', _) :=
              foldl (fun st' dep => visit fuel graph dep st')
                    (pm0, {[node]} ∪ tm, sorted0) ds in
            tm' = {[node]} ∪ tm).
  { induction ds as [|d ds IHds]; intros pm0 sorted0; simpl; [done|].
    pose proof (IH d pm0 ({[node]} ∪ tm) sorted0) as Hv.
    destruct (visit fuel graph d _) as [[pm1 tm1] sorted1].
    subst tm1. apply IHds. }
  specialize (Hfold (elements (default ∅ (graph !! node))) pm sorted).
  destruct (foldl _ _ _) as [[pm' tm'] sorted']. subst tm'.
  apply set_eq. intros y. destruct (decide (y = node)); set_solver.
Qed.

Lemma visit_closed (graph : Graph) (N : gset CellIdentifier) fuel node pm tm sorted :
  (∀ x y, y ∈ default ∅ (graph !! x) -> y ∈ N) -> node ∈ N ->
  size (N ∖ tm) < fuel -> closed_marks graph pm tm ->
  let '(pm', _, _) := visit fuel graph node (pm, tm, sorted) in
  closed_marks graph pm' tm ∧ pm ⊆ pm' ∧ (node ∈ pm' ∨ node ∈ tm).
Proof.
  intros HN. revert node pm tm sorted.
  induction fuel as [|fuel IH]; intros node pm tm sorted Hn Hsz Hc; [lia|].
  simpl. case_decide as Hpm; [split; [done|]; split; [done|]; by left|].
  case_decide as Htm; [split; [done|]; split; [done|]; by right|].
  assert (Hsz' : size (N ∖ ({[node]} ∪ tm)) < fuel).
  { assert (size (N ∖ ({[node]} ∪ tm)) < size (N ∖ tm)); [|lia].
    apply subset_size. split; [set_solver|].
    intros Hsub. assert (Hx : node ∈ N ∖ tm) by set_solver.
    apply Hsub in Hx. set_solver. }
  assert (Hfold : ∀ (ds : list CellIdentifier) pm0 sorted0,
            (∀ d, d ∈ ds -> d ∈ N) -> closed_marks graph pm0 ({[node]} ∪ tm) ->
            let '(pm1, tm1, _) :=
              foldl (fun st' dep => visit fuel graph dep st')
                    (pm0, {[node]} ∪ tm, sorted0) ds in
            tm1 = {[node]} ∪ tm ∧ closed_marks graph pm1 ({[node]} ∪ tm) ∧
            pm0 ⊆ pm1 ∧ ∀ d, d ∈ ds -> d ∈ pm1 ∨ d ∈ {[node]} ∪ tm).
  { induction ds as [|d ds IHds]; intros pm0 sorted0 Hds Hc0; simpl.
    - split; [done|]. split; [done|]. split; [done|].
      intros d Hd. by apply not_elem_of_nil in Hd.
    - assert (HdN : d ∈ N) by (apply Hds, elem_of_cons; by left).
      pose proof (IH d pm0 ({[node]} ∪ tm) sorted0 HdN Hsz' Hc0) as Hv.
      pose proof (visit_tm graph fuel d pm0 ({[node]} ∪ tm) sorted0) as Ht.
      destruct (visit fuel graph d _) as [[pm1 tm1] sorted1].
      subst tm1. destruct Hv as (Hc1 & Hsub1 & Hd1).
      assert (Hds' : ∀ d', d' ∈ ds -> d' ∈ N).
      { intros d' Hd'. apply Hds, elem_of_cons. by right. }
      pose proof (IHds pm1 sorted1 Hds' Hc1) as Hf.
      destruct (foldl _ _ _) as [[pm2 tm2] sorted2].
      destruct Hf as (-> & Hc2 & Hsub2 & Hds2).
      split; [done|]. split; [done|]. split; [set_solver|].
      intros d' Hd'. apply elem_of_cons in Hd' as [->|Hd']; [|by apply Hds2].
      destruct Hd1 as [Hd1|Hd1]; [left; set_solver|by right]. }
  specialize (Hfold (elements (default ∅ (graph !! node))) pm sorted).
  destruct (foldl _ _ _) as [[pm1 tm1] s1].
  destruct Hfold as (-> & Hc1 & Hsub1 & Hch).
  { intros d Hd. apply elem_of_elements in Hd. by eapply HN. }
  { intros x y Hx Hy. destruct (Hc x y Hx Hy) as [Hy'|Hy']; [by left|right; set_solver]. }
  split; [|split; [set_solver|left; set_solver]].
  intros x y Hx Hy. apply elem_of_union in Hx as [Hx|Hx].
  - apply elem_of_singleton in Hx. subst x.
    destruct (Hch y) as [Hy'|Hy']; [by apply elem_of_elements|left; set_solver|].
    destruct (decide (y = node)); [left; set_solver|right; set_solver].
  - destruct (Hc1 x y Hx Hy) as [Hy'|Hy']; [left; set_solver|].
    destruct (decide (y = node)); [left; set_solver|right; set_solver].
Qed.

Lemma topological_sort_closed (graph : Graph) (N : gset CellIdentifier) fuel :
  (∀ x y, y ∈ default ∅ (graph !! x) -> y ∈ N) -> dom graph ⊆ N ->
  size N < fuel ->
  ∀ k y, k ∈ dom graph -> y ∈ default ∅ (graph !! k) ->
  y ∈ topological_sort fuel graph.
Proof.
  intros HN Hdom Hsz k y Hk Hy. unfold topological_sort.
  assert (Hsz0 : size (N ∖ ∅) < fuel).
  { pose proof (subseteq_size (N ∖ ∅) N ltac:(set_solver)). lia. }
  assert (Hfold : ∀ (ks : list CellIdentifier) pm sorted,
            (∀ k', k' ∈ ks -> k' ∈ N) ->
            marks_ok (pm, ∅, sorted) -> closed_marks graph pm ∅ ->
            let '(pm', tm', sorted') :=
              foldl (fun st node =>
                       let '(permanent_marks, _, _) := st in
                       if decide (node ∈ permanent_marks) then st
                       else visit fuel graph node st) (pm, ∅, sorted) ks in
            tm' = ∅ ∧ marks_ok (pm', tm', sorted') ∧ closed_marks graph pm' ∅ ∧
            pm ⊆ pm' ∧ ∀ k', k' ∈ ks -> k' ∈ pm').
  { induction ks as [|k' ks IHks]; intros pm sorted Hks Hok Hc; simpl.
    - split; [done|]. split; [done|]. split; [done|]. split; [done|].
      intros k'' Hk''. by apply not_elem_of_nil in Hk''.
    - assert (Hks' : ∀ k'', k'' ∈ ks -> k'' ∈ N).
      { intros k'' Hk''. apply Hks, elem_of_cons. by right. }
      case_decide as Hk'.
      + pose proof (IHks pm sorted Hks' Hok Hc) as Hf.
        destruct (foldl _ _ _) as [[pm2 tm2] sorted2].
        destruct Hf as (-> & Hok2 & Hc2 & Hsub2 & Hin2).
        split; [done|]. split; [done|]. split; [done|]. split; [done|].
        intros k'' Hk''. apply elem_of_cons in Hk'' as [->|Hk'']; [set_solver|by apply Hin2].
      + assert (Hk'N : k' ∈ N) by (apply Hks, elem_of_cons; by left).
        pose proof (visit_closed graph N fuel k' pm ∅ sorted HN Hk'N Hsz0 Hc) as Hv.
        pose proof (visit_tm graph fuel k' pm ∅ sorted) as Ht.
        pose proof (visit_marks_ok graph fuel k' pm ∅ sorted Hok) as Hm.
        destruct (visit fuel graph k' _) as [[pm1 tm1] sorted1].
        subst tm1. destruct Hv as (Hc1 & Hsub1 & Hin1). destruct Hm as [Hok1 _].
        pose proof (IHks pm1 sorted1 Hks' Hok1 Hc1) as Hf.
        destruct (foldl _ _ _) as [[pm2 tm2] sorted2].
        destruct Hf as (-> & Hok2 & Hc2 & Hsub2 & Hin2).
        split; [done|]. split; [done|]. split; [done|]. split; [set_solver|].
        intros k'' Hk''. apply elem_of_cons in Hk'' as [->|Hk'']; [set_solver|by apply Hin2]. }
  specialize (Hfold (elements (dom graph)) ∅ []).
  destruct (foldl _ _ _) as [[pm tm] order].
  destruct Hfold as (-> & (_ & Hmem & _) & Hc & _ & Hin).
  - intros k' Hk'. apply elem_of_elements in Hk'. set_solver.
  - split; [constructor|]. split; [|set_solver].
    intros y'. split; [intros Hy'; by apply not_elem_of_nil in Hy'|set_solver].
  - intros x y' Hx. set_solver.
  - apply Hmem. destruct (Hc k y) as [Hy'|Hy']; [by apply Hin, elem_of_elements|done|done|].
    set_solver.
Qed.

Lemma update_order_origin (cells : Store) (cell_id : CellIdentifier) :
  dependents_of cells cell_id ≠ ∅ -> cell_id ∈ update_order cells cell_id.
Proof.
  intros Hne. apply set_choose_L in Hne as [d Hd].
  unfold update_order, worker_fuel.
  set (F := size cells + map_fold (fun _ c acc => size (dependents c) + acc) 0 cells).
  destruct (build_dependency_graph_origin cells F cell_id d Hd) as (s & Hs & Hcur).
  pose proof (build_dependency_graph_bounded cells (S F) cell_id) as Hb.
  set (graph := build_dependency_graph (S F) cells cell_id) in *.
  apply (topological_sort_closed graph (all_dependents cells ∪ dom cells) (S F))
    with (k := d).
  - intros x y Hy. destruct (graph !! x) as [s'|] eqn:Hx; simpl in Hy; [|set_solver].
    destruct (Hb x s' Hx) as [_ Hs']. set_solver.
  - intros k Hk. apply elem_of_dom in Hk as [s' Hk].
    destruct (Hb k s' Hk) as [Hk' _]. set_solver.
  - pose proof (size_union_le (all_dependents cells) (dom cells)) as H1.
    pose proof (size_all_dependents cells) as H2.
    rewrite size_dom in H1. unfold F. lia.
  - apply elem_of_dom. by exists s.
  - by rewrite Hs.
Qed.

(** C5 (amended): every cell in the order the worker computes for a
    change of [cell_id] is [cell_id] itself or a cell that transitively
    depends on it through [dependents] edges; and [cell_id] itself is in
    that order, hence recomputed, whenever it has a reverse dependency. *)
Theorem update_order_reachable (cells : Store) (cell_id : CellIdentifier) :
  (∀ x, x ∈ update_order cells cell_id -> rtc (dependent_edge cells) cell_id x) ∧
  (dependents_of cells cell_id ≠ ∅ -> cell_id ∈ update_order cells cell_id).
Proof.
  split.
  - intros x. unfold update_order. apply topological_sort_within.
    apply build_dependency_graph_within.
  - apply update_order_origin.
Qed.

End OriginInOrder.

(** ** The worker's gather against [resolve_variables] *)

Section GatherAgreement.
Context `{Lib : CellExprLib}.

Lemma gather_var_insert_opt (cells : Store) (m : gmap string CellArgument.t)
    (k : string) :
  gather_var cells m k = insert_opt m k (gather_arg cells k).
Proof.
  unfold gather_arg, gather_var, insert_opt.
  destruct (negb (contains "_" k)).
  - destruct (parse_cell_identifier k) as [id|]; [|by rewrite lookup_empty].
    destruct (cells !! id); [by rewrite lookup_insert_eq|by rewrite lookup_empty].
  - destruct (parse_range k) as [[st en]|]; [by rewrite lookup_insert_eq|].
    by rewrite lookup_empty.
Qed.

Lemma worker_gather_lookup (cells : Store) (cell_expr : CellExpr) (x : string) :
  worker_gather cells cell_expr !! x =
  if decide (x ∈ find_variable_names cell_expr) then gather_arg cells x else None.
Proof.
  unfold worker_gather.
  rewrite (foldl_insert_opt_lookup _ (gather_arg cells));
    [|intros m k; apply gather_var_insert_opt].
  case_decide; [destruct (gather_arg cells x)|]; done.
Qed.

Lemma get_no_error_values (cells : Store) (id : CellIdentifier) :
  no_error_values cells -> get cells id = cell_value_or_none cells id.
Proof.
  intros Hne. unfold get, cell_value_or_none.
  destruct (cells !! id) as [info|]; [|done].
  destruct (existsb (dep_is_error cells) (dependencies info)) eqn:He; [|done].
  apply existsb_dep_is_error in He as (dep & _ & d & msg & Hd & Hv).
  specialize (Hne dep d Hd). simpl in Hne. by rewrite Hv in Hne.
Qed.

Lemma has_errors_no_error_values (cells : Store) (start end_ : CellIdentifier) :
  no_error_values cells -> has_errors cells start end_ = false.
Proof.
  intros Hne. destruct (has_errors cells start end_) eqn:He; [|done].
  apply has_errors_spec in He as (c & r & _ & _ & d & msg & Hd & Hv).
  specialize (Hne _ d Hd). simpl in Hne. by rewrite Hv in Hne.
Qed.

(** X12: On a store where no record holds an [Error] value, every binding the
    worker's inline gather makes is the one [resolve_variables] makes; the
    only names [resolve_variables] binds and the worker leaves unbound are
    scalar names of cells without a record, bound to [None]. *)
Theorem worker_gather_agrees_without_errors (cells : Store) (cell_expr : CellExpr) :
  no_error_values cells ->
  (∀ x a, worker_gather cells cell_expr !! x = Some a ->
          resolve_variables cells cell_expr !! x = Some a) ∧
  (∀ x a, resolve_variables cells cell_expr !! x = Some a ->
          worker_gather cells cell_expr !! x = None ->
          x ∈ find_variable_names cell_expr ∧ contains "_" x = false ∧
          ∃ id, parse_cell_identifier x = Some id ∧ cells !! id = None ∧
                a = CellArgument.Value CellValue.None).
Proof.
  intros Hne.
  assert (Hget : ∀ id, get cells id = cell_value_or_none cells id)
    by (intros id; by apply get_no_error_values).
  split.
  - intros x a. rewrite worker_gather_lookup, resolve_variables_lookup.
    case_decide; [|done].
    unfold gather_arg, gather_var, resolve_arg.
    destruct (contains "_" x); simpl.
    + destruct (parse_range x) as [[st en]|]; [|by rewrite lookup_empty].
      rewrite lookup_insert_eq. intros [= <-]. f_equal.
      unfold get_range_argument. rewrite has_errors_no_error_values by done.
      destruct (col st =? col en)%N; [|destruct (row st =? row en)%N].
      * unfold get_vertical_vector. f_equal. apply map_ext. intros. apply Hget.
      * unfold get_horizontal_vector. f_equal. apply map_ext. intros. apply Hget.
      * unfold get_matrix. f_equal. apply map_ext. intros.
        apply map_ext. intros. apply Hget.
    + destruct (parse_cell_identifier x) as [id|]; [|by rewrite lookup_empty].
      destruct (cells !! id) as [c|] eqn:Hc; [|by rewrite lookup_empty].
      rewrite lookup_insert_eq. intros [= <-]. rewrite Hget.
      unfold cell_value_or_none. by rewrite Hc.
  - intros x a. rewrite worker_gather_lookup, resolve_variables_lookup.
    case_decide as Hx; [|done].
    unfold gather_arg, gather_var, resolve_arg.
    destruct (contains "_" x) eqn:Hu; simpl.
    + destruct (parse_range x) as [[st en]|]; [|done].
      by rewrite lookup_insert_eq.
    + destruct (parse_cell_identifier x) as [id|] eqn:Hid; [|done].
      intros [= <-]. rewrite Hget. unfold cell_value_or_none.
      destruct (cells !! id) eqn:Hc; [by rewrite lookup_insert_eq|].
      intros _. split; [done|]. split; [done|]. by exists id.
Qed.

End GatherAgreement.

(** ** Replies of the connection handler *)

Section Replies.
Context `{Lib : CellExprLib}.
Context (parse_command : string -> result Command.t string).
Context (column_number_to_name : N -> string).

Lemma get_is_VDOE (cells : Store) (cell_id : CellIdentifier) :
  get cells cell_id = VDOE <->
  ∃ info, cells !! cell_id = Some info ∧
    ((∃ dep, dep ∈ dependencies info ∧ dep_holds_error cells dep) ∨ value info = VDOE).
Proof.
  unfold get. destruct (cells !! cell_id) as [info|].
  - destruct (existsb (dep_is_error cells) (dependencies info)) eqn:He.
    + split; [|done]. intros _. exists info. split; [done|]. left.
      by apply existsb_dep_is_error.
    + split.
      * intros Hv. exists info. split; [done|]. by right.
      * intros (i & [= <-] & [Hd|Hv]); [|done].
        apply existsb_dep_is_error in Hd. congruence.
  - split; [discriminate|]. by intros (i & ? & _).
Qed.

(** X13: A [get] request of a cell whose row is below [u32::MAX] changes
    nothing and is always answered: with
    [Reply::Error("Cell depends on another error cell")] exactly when the
    cell has a record and either one of its dependencies holds an [Error]
    value or its own value is [Error("VariableDependsOnError")]; otherwise
    with the cell's name and its [get] value. *)
Theorem get_request_reply (sh : Sheet) (msg : string) (now : nat)
    (cell_identifier : CellIdentifier) :
  parse_command msg = Ok (Command.Get cell_identifier) ->
  (row cell_identifier < u32_max)%N ->
  let out := handle_message parse_command column_number_to_name sh msg now in
  let err := ∃ info, cells sh !! cell_identifier = Some info ∧
               ((∃ dep, dep ∈ dependencies info ∧ dep_holds_error (cells sh) dep) ∨
                value info = VDOE) in
  out.2 = sh ∧
  (err -> out.1 = WriteReply (Reply.Error "Cell depends on another error cell")) ∧
  (¬ err -> out.1 = WriteReply
               (Reply.Value (column_number_to_name (col cell_identifier) ++
                             pretty (row cell_identifier + 1)%N)
                            (get (cells sh) cell_identifier))).
Proof.
  intros Hp Hr. cbv zeta. rewrite <- get_is_VDOE.
  unfold handle_message. rewrite Hp. unfold cell_name.
  rewrite (proj2 (N.ltb_lt _ _) Hr).
  destruct (get (cells sh) cell_identifier) as [| | |m] eqn:Hg;
    try (split; [done|]; split; [intros [=]|done]).
  destruct (String.eqb_spec m "VariableDependsOnError") as [->|Hm].
  - split; [done|]. split; [done|]. intros Hn. by exfalso.
  - split; [done|]. split; [|done]. intros [= ->]. done.
Qed.

End Replies.

(** * Facts about the concrete runs *)

Module Runs.

Import Examples.
#[local] Existing Instance LiteralSums.lib.

(** C1 (defect): two concurrent [set]s of A1 both commit; the one that
    started later (time 2, value 10) commits first, the one that started
    earlier (time 1, value 5) commits last and overwrites it, and A1 still
    holds 5 after the worker has handled both change events. *)
Lemma concurrent_sets_older_commit_wins :
  p_time slow_set < p_time fast_set ∧
  p_value slow_set = CellValue.Int 5 ∧
  p_value fast_set = CellValue.Int 10 ∧
  get (cells after_both) A1 = CellValue.Int 5 ∧
  get after_worker A1 = CellValue.Int 5.
Proof.
  split; [vm_compute; lia|].
  repeat split; vm_compute; reflexivity.
Qed.

(** C7 (defect): in the same run, the commit of the earlier [set] replaces
    A1's [last_update_time] 2 by the smaller 1. *)
Lemma set_commit_decreases_time :
  option_map last_update_time (cells after_fast !! A1) = Some 2 ∧
  option_map last_update_time (cells after_both !! A1) = Some 1.
Proof. split; vm_compute; reflexivity. Qed.

(** C2 counterexample: after [set B1 "A1 + 1"] and then [set A1 "5"], A1
    exists and is a forward dependency of B1, but B1 is not among A1's
    reverse dependencies. *)
Lemma late_target_breaks_integrity : ¬ dep_integrity late_target.
Proof.
  intros H.
  destruct (late_target !! B1) as [ib|] eqn:Hb; [|vm_compute in Hb; discriminate].
  destruct (late_target !! A1) as [ia|] eqn:Ha; [|vm_compute in Ha; discriminate].
  pose proof (H B1 ib A1 ia Hb) as Hx.
  vm_compute in Hb. injection Hb as <-.
  assert (Hin : B1 ∈ dependents ia).
  { apply Hx; [apply elem_of_cons; by left | discriminate | exact Ha]. }
  vm_compute in Ha. injection Ha as <-.
  by apply not_elem_of_empty in Hin.
Qed.

Lemma replay_dep_integrity_witness :
  no_listed_creation ∅ ordered_steps = true ∧
  dep_integrity (replay ∅ ordered_steps).
Proof.
  split; [vm_compute; reflexivity|].
  apply replay_dep_integrity. vm_compute. reflexivity.
Defined.

Lemma worker_commit_guard_witness :
  one_cell !! A1 = Some a1_record ∧
  commit_outcome one_cell A1 a1_record 7 (Ok (CellValue.Int 8)).
Proof.
  split; [reflexivity|].
  apply worker_commit_guard. reflexivity.
Defined.

(** C5 counterexample: after [set A1 "5"], [set B1 "A1 + 1"] and
    [set A1 "10"], the worker's order for the change of A1 contains A1,
    and its recomputation rewrites A1's record (time 3 becomes 10). *)
Lemma worker_recomputes_origin :
  A1 ∈ update_order chain A1 ∧
  option_map last_update_time (chain !! A1) = Some 3 ∧
  option_map last_update_time (process_cell_update chain A1 10 !! A1) = Some 10.
Proof.
  split; [apply (bool_decide_unpack (A1 ∈ update_order chain A1)); vm_compute; exact I|].
  split; vm_compute; reflexivity.
Qed.

Lemma update_order_reachable_witness :
  B1 ∈ update_order chain A1 ∧ rtc (dependent_edge chain) A1 B1 ∧
  dependents_of chain A1 ≠ ∅ ∧ A1 ∈ update_order chain A1.
Proof.
  assert (Hin : B1 ∈ update_order chain A1).
  { apply (bool_decide_unpack (B1 ∈ update_order chain A1)). vm_compute. exact I. }
  assert (Hd : dependents_of chain A1 ≠ ∅).
  { apply (bool_decide_unpack (dependents_of chain A1 ≠ ∅)). vm_compute. exact I. }
  split; [exact Hin|]. split; [exact (proj1 (update_order_reachable chain A1) B1 Hin)|].
  split; [exact Hd|]. exact (proj2 (update_order_reachable chain A1) Hd).
Defined.

(** C6 (defect): for the expression [A1_A2 + C1] on a store where A1 holds
    a local error and A2, C1 have no record, [resolve_variables] binds the
    range to the transitive error and C1 to [None], while the worker binds
    the range to the shaped vector (error included) and leaves C1 unbound. *)
Lemma worker_gather_differs :
  let e := cell_expr_new "A1_A2 + C1" in
  resolve_variables with_error e !! "A1_A2" = Some (CellArgument.Value VDOE) ∧
  worker_gather with_error e !! "A1_A2" =
    Some (CellArgument.Vector [CellValue.Error "cannot evaluate: 1 +"; CellValue.None]) ∧
  resolve_variables with_error e !! "C1" = Some (CellArgument.Value CellValue.None) ∧
  worker_gather with_error e !! "C1" = None.
Proof. repeat split; vm_compute; reflexivity. Qed.

Lemma get_range_argument_shape_witness :
  (col A1 <= col B2)%N ∧ (row A1 <= row B2)%N ∧ range_argument_shape chain A1 B2.
Proof.
  split; [apply N.leb_le; reflexivity|].
  split; [apply N.leb_le; reflexivity|].
  apply get_range_argument_shape; apply N.leb_le; reflexivity.
Defined.

(** C9 counterexample: the reversed range [B1_A1] parses, and the resolver
    binds it (to an empty vector) instead of skipping it. *)
Lemma reversed_range_is_bound :
  parse_range "B1_A1" = Some (B1, A1) ∧
  resolve_variables chain (cell_expr_new "B1_A1 + 1") !! "B1_A1" =
    Some (CellArgument.Vector []).
Proof. split; vm_compute; reflexivity. Qed.

Lemma reversed_range_bound_empty_witness :
  "B1_A1" ∈ find_variable_names (cell_expr_new "B1_A1 + 1") ∧
  contains "_" "B1_A1" = true ∧
  parse_range "B1_A1" = Some (B1, A1) ∧
  ¬ ((col B1 <= col A1)%N ∧ (row B1 <= row A1)%N) ∧
  reversed_range_binding chain (cell_expr_new "B1_A1 + 1") "B1_A1" B1 A1.
Proof.
  assert (Hin : "B1_A1" ∈ find_variable_names (cell_expr_new "B1_A1 + 1")).
  { apply (bool_decide_unpack ("B1_A1" ∈ find_variable_names (cell_expr_new "B1_A1 + 1"))).
    vm_compute. exact I. }
  assert (Hrev : ¬ ((col B1 <= col A1)%N ∧ (row B1 <= row A1)%N)).
  { simpl. lia. }
  split; [exact Hin|]. split; [reflexivity|]. split; [reflexivity|].
  split; [exact Hrev|].
  apply reversed_range_bound_empty; [exact Hin|reflexivity|reflexivity|exact Hrev].
Defined.

End Runs.

(** * Instances of the further properties *)

Module ExtraRuns.

Import Examples.
#[local] Existing Instance LiteralSums.lib.

Lemma rtc_from_no_dependents (cells : Store) (c y : CellIdentifier) :
  dependents_of cells c = ∅ -> rtc (dependent_edge cells) c y -> y = c.
Proof.
  intros Hd Hr. inversion Hr as [|x z w Hxz Hzw]; [done|].
  unfold dependent_edge in Hxz. rewrite Hd in Hxz.
  by apply not_elem_of_empty in Hxz.
Qed.

Lemma chain_B1_no_dependents : dependents_of chain B1 = ∅.
Proof. vm_compute. reflexivity. Qed.

Lemma range_token_dependencies_witness :
  contains "_" "A1_B2" = true ∧ parse_range "A1_B2" = Some (A1, B2) ∧
  NoDup (var_dependencies "A1_B2") ∧
  ∀ d, d ∈ var_dependencies "A1_B2" <->
       (col A1 <= col d <= col B2)%N ∧ (row A1 <= row d <= row B2)%N.
Proof.
  assert (Hc : contains "_" "A1_B2" = true) by reflexivity.
  assert (Hp : parse_range "A1_B2" = Some (A1, B2)) by (vm_compute; reflexivity).
  split; [exact Hc|]. split; [exact Hp|].
  exact (range_token_dependencies "A1_B2" A1 B2 Hc Hp).
Defined.

Lemma drop_stops_worker_witness :
  receiver_alive chain_sheet = true ∧
  process_cells_update (cells chain_sheet)
    (queue (drop_spreadsheet chain_sheet) ++ [CellUpdate A1]) 4 =
  process_cells_update (cells chain_sheet) (queue chain_sheet) 4.
Proof.
  assert (Ha : receiver_alive chain_sheet = true) by (vm_compute; reflexivity).
  split; [exact Ha|]. exact (drop_stops_worker chain_sheet (cells chain_sheet) [CellUpdate A1] 4 Ha).
Defined.

Lemma process_cell_update_unreachable_witness :
  ¬ rtc (dependent_edge chain) B1 A1 ∧
  process_cell_update chain B1 5 !! A1 = chain !! A1.
Proof.
  assert (Hn : ¬ rtc (dependent_edge chain) B1 A1).
  { intros Hr. apply rtc_from_no_dependents in Hr; [discriminate|].
    exact chain_B1_no_dependents. }
  split; [exact Hn|]. exact (process_cell_update_unreachable chain B1 A1 5 Hn).
Defined.

Lemma process_cell_update_no_dependents_witness :
  dependents_of chain B1 = ∅ ∧
  update_order chain B1 = [] ∧ process_cell_update chain B1 5 = chain.
Proof.
  split; [exact chain_B1_no_dependents|].
  exact (process_cell_update_no_dependents chain B1 5 chain_B1_no_dependents).
Defined.

Lemma worker_gather_agrees_without_errors_witness :
  no_error_values chain ∧
  (∀ x a, worker_gather chain "A1_B1 + A1 + C1" !! x = Some a ->
          resolve_variables chain "A1_B1 + A1 + C1" !! x = Some a) ∧
  (∀ x a, resolve_variables chain "A1_B1 + A1 + C1" !! x = Some a ->
          worker_gather chain "A1_B1 + A1 + C1" !! x = None ->
          x ∈ find_variable_names "A1_B1 + A1 + C1" ∧ contains "_" x = false ∧
          ∃ id, parse_cell_identifier x = Some id ∧ chain !! id = None ∧
                a = CellArgument.Value CellValue.None).
Proof.
  assert (Hne : no_error_values chain).
  { apply (bool_decide_unpack (no_error_values chain)). vm_compute. exact I. }
  split; [exact Hne|].
  exact (worker_gather_agrees_without_errors chain "A1_B1 + A1 + C1" Hne).
Defined.

Lemma get_request_reply_witness :
  parse_request "get B1" = Ok (Command.Get B1) ∧ (row B1 < u32_max)%N ∧
  let out := handle_message parse_request column_name
               error_dependency_sheet "get B1" 3 in
  let err := ∃ info, cells error_dependency_sheet !! B1 = Some info ∧
               ((∃ dep, dep ∈ dependencies info ∧
                        dep_holds_error (cells error_dependency_sheet) dep) ∨
                value info = VDOE) in
  out.2 = error_dependency_sheet ∧
  (err -> out.1 = WriteReply (Reply.Error "Cell depends on another error cell")) ∧
  (¬ err -> out.1 = WriteReply
               (Reply.Value (column_name (col B1) ++ pretty (row B1 + 1)%N)
                            (get (cells error_dependency_sheet) B1))).
Proof.
  assert (Hp : parse_request "get B1" = Ok (Command.Get B1)) by (vm_compute; reflexivity).
  assert (Hr : (row B1 < u32_max)%N) by (vm_compute; reflexivity).
  split; [exact Hp|]. split; [exact Hr|].
  exact (get_request_reply parse_request column_name error_dependency_sheet
           "get B1" 3 B1 Hp Hr).
Defined.

End ExtraRuns.
